(** * GlobalSchedule: the global-transition scheduler

    A shallow embedding of [FWCore/Framework/src/GlobalSchedule.cc]
    (namespace [edm]): the constructor, [beginJob], [endJob],
    [replaceModule], [deleteModule], [getAllModuleDescriptions] and
    [handleException].

    C++ objects reached through pointers ([Worker*]) live in a heap that is
    part of the program state; exceptions, the activity log of the
    collaborators and the caller's [ExceptionCollector] are threaded through
    a small state-and-exception monad. *)

From Stdlib Require Import ZArith String List Lia.
From stdpp Require Import base tactics option list strings.

(** ** Unsigned arithmetic *)

(** [unsigned int] is 32 bits wide; sums wrap around. *)
Definition wrap32 (z : Z) : Z := (z mod 2 ^ 32)%Z.

(** ** Exceptions *)

(** [cms::Exception]: a category, a message and the list of context
    strings ([context()], extended at the back by [addContext]). *)
Record cms_Exception := mk_cms_Exception {
  category : string;
  message : string;
  context : list string
}.

(** What a C++ [throw] may carry: a [cms::Exception] (or a class derived
    from it), caught by [catch (cms::Exception&)], or anything else, caught
    only by [catch (...)]. *)
Inductive exception :=
| Cms (ex : cms_Exception)
| Foreign (what : string).

(** [std::exception_ptr]: null or an exception. *)
Definition exception_ptr := option exception.

(** [cms::Exception::addContext]. *)
Definition addContext (ex : cms_Exception) (s : string) : cms_Exception :=
  {| category := category ex; message := message ex; context := context ex ++ [s] |}.

(** ** Contexts *)

Inductive Transition := kBeginJob | kEndJob.

Record ProcessContext := mk_ProcessContext { processName : string }.

(** [GlobalContext(transition, processContext)]. *)
Record GlobalContext := mk_GlobalContext {
  transition : Transition;
  processContext : ProcessContext
}.

(** [TerminationOrigin], as far as this file names it. *)
Inductive TerminationOrigin := ExceptionFromThisContext.

(** [ServiceWeakToken]: only handed on to [ServiceRegistry::Operate]. *)
Record ServiceWeakToken := mk_ServiceWeakToken { tokenId : nat }.

(** ** Modules and workers *)

Record ModuleDescription := mk_ModuleDescription {
  moduleLabel : string;
  moduleName : string
}.

(** A module implementation: its own description and what its begin-job and
    end-job do ([None]: return, [Some e]: throw [e]). *)
Record Module := mk_Module {
  moduleDescription : ModuleDescription;
  onBeginJob : option exception;
  onEndJob : option exception
}.

(** [maker::ModuleHolder]: holds the replacement implementation. *)
Record ModuleHolder := mk_ModuleHolder { m_mod : Module }.

(** A [Worker] object: its descriptor and the implementation it drives. *)
Record Worker := mk_Worker {
  description : ModuleDescription;
  module_ : Module
}.

(** [Worker*]: an address in the heap of workers. *)
Abbreviation WorkerPtr := nat.

(** [WorkerManager]: [allWorkers()] is its vector of [Worker*]. *)
Record WorkerManager := mk_WorkerManager { allWorkers : list WorkerPtr }.

(** ** Collaborators *)

(** [ActivityRegistry]: what the slots connected to each signal do when the
    signal is emitted ([None]: return, [Some e]: throw [e]). *)
Record ActivityRegistry := mk_ActivityRegistry {
  preBeginJobSignal_ : ProcessContext -> option exception;
  postBeginJobSignal_ : option exception;
  preEndJobSignal_ : option exception;
  postEndJobSignal_ : option exception;
  preGlobalEarlyTerminationSignal_ : GlobalContext -> TerminationOrigin -> option exception
}.

(** [PreallocationConfiguration]: the two counts the constructor reads. *)
Record PreallocationConfiguration := mk_Prealloc {
  numberOfLuminosityBlocks : Z;
  numberOfRuns : Z
}.

(** A module's configuration block, as far as the scheduler looks at it. *)
Record ModulePSet := mk_ModulePSet {
  isTracked : bool;
  module_type : string
}.

(** [ParameterSet::getPSetForUpdate(label, isTracked)]: the block of the
    label, or a null pointer. *)
Definition ParameterSet := string -> option ModulePSet.

(** [ModuleRegistry]: builds the implementation for a label from its
    configuration block, or throws. *)
Definition ModuleRegistry := string -> ModulePSet -> exception + Module.

(** ** The scheduler object *)

Record GlobalSchedule := mk_GlobalSchedule {
  actReg_ : option ActivityRegistry;
  processContext_ : ProcessContext;
  numberOfConcurrentLumis_ : Z;
  numberOfConcurrentRuns_ : Z;
  workerManagers_ : list WorkerManager
}.

(** ** Program state *)

(** What the collaborators were asked to do, in order. *)
Inductive Event :=
| EvPreBeginJob (pc : ProcessContext)
| EvPostBeginJob
| EvPreEndJob
| EvPostEndJob
| EvPreGlobalEarlyTermination (gc : GlobalContext) (origin : TerminationOrigin)
| EvManagerBeginJob (wm : WorkerManager) (gc : GlobalContext)
| EvManagerEndJob (wm : WorkerManager) (gc : GlobalContext)
| EvWorkerBeginJob (w : WorkerPtr) (m : Module) (gc : GlobalContext)
| EvWorkerEndJob (w : WorkerPtr) (m : Module) (gc : GlobalContext)
| EvReplaceModuleFor (w : WorkerPtr) (m : Module)
| EvOperate (token : ServiceWeakToken)
| EvPrintException (ex : cms_Exception) (cleaningUpAfterException : bool).

(** The state a call runs in: the heap of [Worker] objects, the log of
    collaborator calls, and the [ExceptionCollector] the caller passes by
    reference (the exceptions it has recorded). *)
Record World := mk_World {
  heap : list Worker;
  log : list Event;
  collector : list cms_Exception
}.

(** How a call ends: it returns a value, it throws, or it leaves defined
    behaviour (a null or dangling pointer dereferenced, an index out of
    range, a failed [assert]). *)
Inductive Result (A : Type) :=
| Ok (a : A)
| Throw (e : exception)
| Fault.
Arguments Ok {A} a.
Arguments Throw {A} e.
Arguments Fault {A}.

Definition M (A : Type) : Type := World -> Result A * World.

Definition ret {A} (a : A) : M A := fun σ => (Ok a, σ).

Definition bind {A B} (m : M A) (k : A -> M B) : M B :=
  fun σ =>
    match m σ with
    | (Ok a, σ') => k a σ'
    | (Throw e, σ') => (Throw e, σ')
    | (Fault, σ') => (Fault, σ')
    end.

Notation "x <- m ;; k" := (bind m (fun x => k))
  (at level 100, m at next level, right associativity).
Notation "m ;;; k" := (bind m (fun _ => k))
  (at level 100, right associativity).

Definition throw {A} (e : exception) : M A := fun σ => (Throw e, σ).

Definition fault {A} : M A := fun σ => (Fault, σ).

(** [try { body } catch (...) { handler }]. *)
Definition try_catch {A} (body : M A) (handler : exception -> M A) : M A :=
  fun σ =>
    match body σ with
    | (Throw e, σ') => handler e σ'
    | r => r
    end.

(** [try { body } catch (cms::Exception& ex) { handler }]: anything that is
    not a [cms::Exception] passes through. *)
Definition try_catch_cms {A} (body : M A) (handler : cms_Exception -> M A) : M A :=
  fun σ =>
    match body σ with
    | (Throw (Cms ex), σ') => handler ex σ'
    | r => r
    end.

Definition emit (ev : Event) : M unit :=
  fun σ => (Ok tt, {| heap := heap σ; log := log σ ++ [ev]; collector := collector σ |}).

(** Emitting a signal: the call is logged, then the connected slots run. *)
Definition signal (ev : Event) (slots : option exception) : M unit :=
  emit ev ;;;
  match slots with
  | Some e => throw e
  | None => ret tt
  end.

(** [*p] for a [Worker* p]. *)
Definition deref (p : WorkerPtr) : M Worker :=
  fun σ =>
    match heap σ !! p with
    | Some wk => (Ok wk, σ)
    | None => (Fault, σ)
    end.

(** [new Worker(...)]. *)
Definition alloc (wk : Worker) : M WorkerPtr :=
  fun σ => (Ok (length (heap σ)),
            {| heap := heap σ ++ [wk]; log := log σ; collector := collector σ |}).

(** Overwriting the object a [Worker*] points to. *)
Definition store (p : WorkerPtr) (wk : Worker) : M unit :=
  fun σ =>
    match heap σ !! p with
    | Some _ => (Ok tt, {| heap := <[p := wk]> (heap σ); log := log σ; collector := collector σ |})
    | None => (Fault, σ)
    end.

(** [v[i]] for a [std::vector] and an [unsigned int] index. *)
Definition at_ {A} (v : list A) (i : Z) : M A :=
  match v !! Z.to_nat i with
  | Some a => ret a
  | None => fault
  end.

(** [ExceptionCollector::addException]. *)
Definition addException (ex : cms_Exception) : M unit :=
  fun σ => (Ok tt, {| heap := heap σ; log := log σ; collector := collector σ ++ [ex] |}).

(** [for (auto& worker : workers) body(worker)]. *)
Fixpoint forEachWorker (body : WorkerPtr -> M unit) (workers : list WorkerPtr) : M unit :=
  match workers with
  | [] => ret tt
  | w :: rest => body w ;;; forEachWorker body rest
  end.

(** [for (auto& wm : workerManagers_) body(wm)], [body] updating [wm]. *)
Fixpoint forEachManager (body : WorkerManager -> M WorkerManager)
    (wms : list WorkerManager) : M (list WorkerManager) :=
  match wms with
  | [] => ret []
  | wm :: rest =>
      wm' <- body wm ;;
      rest' <- forEachManager body rest ;;
      ret (wm' :: rest')
  end.

(** [for (auto const& x : xs) body(x)], [body] updating the state [s] of the
    enclosing scope. *)
Fixpoint forEach {A S} (body : S -> A -> M S) (xs : list A) (s : S) : M S :=
  match xs with
  | [] => ret s
  | x :: rest => s' <- body s x ;; forEach body rest s'
  end.

(** The search loop of [replaceModule]:
    [for (auto const& worker : wm.allWorkers())
       if (worker->description()->moduleLabel() == iLabel) { found = worker; break; }]
    with [found] as it stood before the loop. *)
Fixpoint searchLabel (iLabel : string) (workers : list WorkerPtr)
    (found : option WorkerPtr) : M (option WorkerPtr) :=
  match workers with
  | [] => ret found
  | worker :: rest =>
      wk <- deref worker ;;
      if String.eqb (moduleLabel (description wk)) iLabel
      then ret (Some worker)
      else searchLabel iLabel rest found
  end.

(** ** What the file takes from its headers *)

(** The declarations [GlobalSchedule.cc] uses and does not define:

    - [numberOfConcurrentProcessBlocks_], a constant member declared in the
      class; its value is not fixed here;
    - [toEDM]: [convertException::wrap] turns whatever the callable throws
      into a [cms::Exception], and [toEDM] is the conversion of what is not
      one already;
    - [exceptionContext(ex, globalContext, stage)], which edits the
      exception in place;
    - [exceptionContext(ost, globalContext)], as the text it writes to the
      stream. *)
Class Headers := mk_Headers {
  numberOfConcurrentProcessBlocks_ : Z;
  toEDM : string -> cms_Exception;
  exceptionContext : cms_Exception -> GlobalContext -> string -> cms_Exception;
  exceptionContext_ost : GlobalContext -> string
}.

Section Scheduler.

Context {hdr : Headers}.

(** Modelled from the spec: [numberOfConcurrentJobs_], declared in the
    class, is the single job slot ("exactly one job slot, always
    present"). *)
Definition numberOfConcurrentJobs_ : Z := 1.

(** Modelled from the spec: [convertException::wrap] is declared in a header
    of its own.  A failure of a hook always reaches the handlers as an
    exception that can be given context: whatever the callable throws comes
    out as a [cms::Exception], [toEDM] converting what is not one
    already. *)
Definition convertException_wrap {A} (f : M A) : M A :=
  fun σ =>
    match f σ with
    | (Throw (Foreign what), σ') => (Throw (Cms (toEDM what)), σ')
    | r => r
    end.

(** ** Collaborators of the scheduler *)

(** Modelled from the spec: [Worker::beginJob] is the Worker's begin-job
    entry point; it runs the begin-job of the implementation the Worker
    holds at that moment, whose failure propagates. *)
Definition Worker_beginJob (w : WorkerPtr) (globalContext : GlobalContext) : M unit :=
  wk <- deref w ;;
  signal (EvWorkerBeginJob w (module_ wk) globalContext) (onBeginJob (module_ wk)).

(** Modelled from the spec: [Worker::endJob], the end-job entry point. *)
Definition Worker_endJob (w : WorkerPtr) (globalContext : GlobalContext) : M unit :=
  wk <- deref w ;;
  signal (EvWorkerEndJob w (module_ wk) globalContext) (onEndJob (module_ wk)).

(** Modelled from the spec: [WorkerManager::beginJob] runs begin-job on
    the Workers of this slot. *)
Definition WorkerManager_beginJob (wm : WorkerManager) (globalContext : GlobalContext) : M unit :=
  emit (EvManagerBeginJob wm globalContext) ;;;
  forEachWorker (fun w => Worker_beginJob w globalContext) (allWorkers wm).

(** Modelled from the spec: [WorkerManager::endJob] runs each Worker's
    end-job and collects the per-Worker failures itself, so that the
    remaining Workers are still ended. *)
Definition WorkerManager_endJob (wm : WorkerManager) (globalContext : GlobalContext) : M unit :=
  emit (EvManagerEndJob wm globalContext) ;;;
  forEachWorker
    (fun w => try_catch_cms (convertException_wrap (Worker_endJob w globalContext))
                            (fun ex => addException ex))
    (allWorkers wm).

(** Modelled from the spec: [ExceptionCollector::call] runs the callable
    and records its failure for deferred reporting instead of letting it
    propagate. *)
Definition ExceptionCollector_call (f : M unit) : M unit :=
  try_catch_cms (convertException_wrap f) (fun ex => addException ex).

(** Modelled from the spec: [WorkerManager::getWorker] is idempotent, a
    label already present in the slot returns the existing Worker without
    reconstruction; otherwise the factory produces a Worker for the label
    from its configuration block, or fails with an error that
    propagates. *)
Definition WorkerManager_getWorker (modReg : ModuleRegistry) (wm : WorkerManager)
    (pset : ModulePSet) (label : string) : M WorkerManager :=
  existing <- searchLabel label (allWorkers wm) None ;;
  match existing with
  | Some _ => ret wm
  | None =>
      match modReg label pset with
      | inl e => throw e
      | inr m =>
          w <- alloc {| description := {| moduleLabel := label; moduleName := module_type pset |};
                        module_ := m |} ;;
          ret {| allWorkers := allWorkers wm ++ [w] |}
      end
  end.

(** Modelled from the spec: [WorkerManager::getWorkerForModule] adds the
    given module directly to the slot, without a configuration lookup, as
    a Worker instance of the slot's own. *)
Definition WorkerManager_getWorkerForModule (wm : WorkerManager) (m : Module) : M WorkerManager :=
  existing <- searchLabel (moduleLabel (moduleDescription m)) (allWorkers wm) None ;;
  match existing with
  | Some _ => ret wm
  | None =>
      w <- alloc {| description := moduleDescription m; module_ := m |} ;;
      ret {| allWorkers := allWorkers wm ++ [w] |}
  end.

(** Modelled from the spec: [WorkerManager::deleteModuleIfExists] removes
    the Worker bound to the label if present; absence is not an error.
    The storage of the removed Worker is not reclaimed in this model. *)
Definition WorkerManager_deleteModuleIfExists (wm : WorkerManager) (label : string) : M WorkerManager :=
  existing <- searchLabel label (allWorkers wm) None ;;
  match existing with
  | Some w => ret {| allWorkers := filter (fun p => p ≠ w) (allWorkers wm) |}
  | None => ret wm
  end.

(** Modelled from the spec: [ModuleHolder::replaceModuleFor] swaps the
    Worker's implementation handle for the held one, preserving the
    Worker's identity and descriptor. *)
Definition ModuleHolder_replaceModuleFor (iMod : ModuleHolder) (w : WorkerPtr) : M unit :=
  wk <- deref w ;;
  store w {| description := description wk; module_ := m_mod iMod |} ;;;
  emit (EvReplaceModuleFor w (m_mod iMod)).

(** Modelled from the spec: [addContextAndPrintException] appends the
    text to the exception's context, nothing when there is no text, and
    reports the exception, marking whether this happens while cleaning up
    after an earlier exception. *)
Definition addContextAndPrintException (text : string) (ex : cms_Exception)
    (cleaningUpAfterException : bool) : M cms_Exception :=
  let ex' := if String.eqb text EmptyString then ex else addContext ex text in
  emit (EvPrintException ex' cleaningUpAfterException) ;;;
  ret ex'.

(** Modelled from the spec: [GlobalSchedule::allWorkers()], declared in
    the class, gives the Workers of all slots. *)
Definition GlobalSchedule_allWorkers (this : GlobalSchedule) : list WorkerPtr :=
  concat (allWorkers <$> workerManagers_ this).

(** [actReg_->] *)
Definition actReg (this : GlobalSchedule) : M ActivityRegistry :=
  match actReg_ this with
  | Some areg => ret areg
  | None => fault
  end.

(** ** GlobalSchedule::GlobalSchedule *)

Definition GlobalSchedule_new
    (inserter : option Module)
    (pathStatusInserters : list Module)
    (endPathStatusInserters : list Module)
    (modReg : ModuleRegistry)
    (iModulesToUse : list string)
    (proc_pset : ParameterSet)
    (prealloc : PreallocationConfiguration)
    (areg : option ActivityRegistry)
    (processContext : ProcessContext) : M GlobalSchedule :=
  let nManagers :=
    wrap32 (wrap32 (wrap32 (numberOfLuminosityBlocks prealloc + numberOfRuns prealloc)
                    + numberOfConcurrentProcessBlocks_)
            + numberOfConcurrentJobs_) in
  let workerManagers := replicate (Z.to_nat nManagers) {| allWorkers := [] |} in
  workerManagers <-
    forEach
      (fun workerManagers moduleLabel =>
         match proc_pset moduleLabel with
         | Some modpset =>
             (if isTracked modpset then ret tt else fault) ;;;
             forEachManager
               (fun wm => WorkerManager_getWorker modReg wm modpset moduleLabel)
               workerManagers
         | None => ret workerManagers
         end)
      iModulesToUse workerManagers ;;
  workerManagers <-
    match inserter with
    | Some m =>
        forEachManager (fun wm => WorkerManager_getWorkerForModule wm m) workerManagers
    | None => ret workerManagers
    end ;;
  workerManagers <-
    forEach
      (fun workerManagers pathStatusInserter =>
         forEachManager (fun wm => WorkerManager_getWorkerForModule wm pathStatusInserter)
                        workerManagers)
      pathStatusInserters workerManagers ;;
  workerManagers <-
    forEach
      (fun workerManagers endPathStatusInserter =>
         forEachManager (fun wm => WorkerManager_getWorkerForModule wm endPathStatusInserter)
                        workerManagers)
      endPathStatusInserters workerManagers ;;
  ret {| actReg_ := areg;
         processContext_ := processContext;
         numberOfConcurrentLumis_ := numberOfLuminosityBlocks prealloc;
         numberOfConcurrentRuns_ := numberOfRuns prealloc;
         workerManagers_ := workerManagers |}.

(** The index of the job slot, as [beginJob], [endJob] and
    [replaceModule] each compute it:
    [numberOfConcurrentLumis_ + numberOfConcurrentRuns_ + numberOfConcurrentProcessBlocks_]. *)
Definition jobSlotIndex (this : GlobalSchedule) : Z :=
  wrap32 (wrap32 (numberOfConcurrentLumis_ this + numberOfConcurrentRuns_ this)
          + numberOfConcurrentProcessBlocks_).

(** ** GlobalSchedule::beginJob *)

Definition beginJob (this : GlobalSchedule) (processContext : ProcessContext) : M unit :=
  let globalContext := mk_GlobalContext kBeginJob (processContext_ this) in
  let managerIndex := jobSlotIndex this in
  exceptionPtr <-
    try_catch
      (try_catch_cms
         (convertException_wrap
            (areg <- actReg this ;;
             signal (EvPreBeginJob processContext) (preBeginJobSignal_ areg processContext)))
         (fun ex =>
            throw (Cms (exceptionContext ex globalContext
                          "Handling pre signal, likely in a service function"))) ;;;
       wm <- at_ (workerManagers_ this) managerIndex ;;
       WorkerManager_beginJob wm globalContext ;;;
       ret None)
      (fun e => ret (Some e)) ;;
  exceptionPtr <-
    try_catch_cms
      (convertException_wrap
         (areg <- actReg this ;;
          signal EvPostBeginJob (postBeginJobSignal_ areg)) ;;;
       ret exceptionPtr)
      (fun ex =>
         match exceptionPtr with
         | None =>
             ret (Some (Cms (exceptionContext ex globalContext
                               "Handling post signal, likely in a service function")))
         | Some _ => ret exceptionPtr
         end) ;;
  match exceptionPtr with
  | Some e => throw e
  | None => ret tt
  end.

(** ** GlobalSchedule::endJob *)

(** The [ExceptionCollector& collector] argument is the collector of the
    state. *)
Definition endJob (this : GlobalSchedule) : M unit :=
  let globalContext := mk_GlobalContext kEndJob (processContext_ this) in
  let managerIndex := jobSlotIndex this in
  exceptionPtr <-
    try_catch
      (try_catch_cms
         (convertException_wrap
            (areg <- actReg this ;;
             signal EvPreEndJob (preEndJobSignal_ areg)))
         (fun ex =>
            throw (Cms (exceptionContext ex globalContext
                          "Handling pre signal, likely in a service function"))) ;;;
       wm <- at_ (workerManagers_ this) managerIndex ;;
       WorkerManager_endJob wm globalContext ;;;
       ret None)
      (fun e => ret (Some e)) ;;
  exceptionPtr <-
    try_catch_cms
      (convertException_wrap
         (areg <- actReg this ;;
          signal EvPostEndJob (postEndJobSignal_ areg)) ;;;
       ret exceptionPtr)
      (fun ex =>
         match exceptionPtr with
         | None =>
             ret (Some (Cms (exceptionContext ex globalContext
                               "Handling post signal, likely in a service function")))
         | Some _ => ret exceptionPtr
         end) ;;
  match exceptionPtr with
  | Some e => ExceptionCollector_call (throw e)
  | None => ret tt
  end.

(** ** GlobalSchedule::replaceModule *)

(** The loop over [workerManagers_]; [found] and [managerIndex] are the
    two locals declared before it. *)
Fixpoint replaceModule_loop (this : GlobalSchedule) (iMod : ModuleHolder) (iLabel : string)
    (jobManagerIndex : Z) (wms : list WorkerManager)
    (found : option WorkerPtr) (managerIndex : Z) : M unit :=
  match wms with
  | [] => ret tt
  | wm :: rest =>
      found <- searchLabel iLabel (allWorkers wm) found ;;
      match found with
      | None => ret tt
      | Some w =>
          ModuleHolder_replaceModuleFor iMod w ;;;
          (if (managerIndex =? jobManagerIndex)%Z
           then Worker_beginJob w (mk_GlobalContext kBeginJob (processContext_ this))
           else ret tt) ;;;
          replaceModule_loop this iMod iLabel jobManagerIndex rest
                             (Some w) (wrap32 (managerIndex + 1))
      end
  end.

Definition replaceModule (this : GlobalSchedule) (iMod : ModuleHolder) (iLabel : string) : M unit :=
  replaceModule_loop this iMod iLabel (jobSlotIndex this) (workerManagers_ this) None 0%Z.

(** ** GlobalSchedule::deleteModule *)

Definition deleteModule (this : GlobalSchedule) (iLabel : string) : M GlobalSchedule :=
  workerManagers <-
    forEachManager (fun wm => WorkerManager_deleteModuleIfExists wm iLabel)
                   (workerManagers_ this) ;;
  ret {| actReg_ := actReg_ this;
         processContext_ := processContext_ this;
         numberOfConcurrentLumis_ := numberOfConcurrentLumis_ this;
         numberOfConcurrentRuns_ := numberOfConcurrentRuns_ this;
         workerManagers_ := workerManagers |}.

(** ** GlobalSchedule::getAllModuleDescriptions *)

Fixpoint descriptionsOf (workers : list WorkerPtr) : M (list ModuleDescription) :=
  match workers with
  | [] => ret []
  | worker :: rest =>
      wk <- deref worker ;;
      result <- descriptionsOf rest ;;
      ret (description wk :: result)
  end.

Definition getAllModuleDescriptions (this : GlobalSchedule) : M (list ModuleDescription) :=
  descriptionsOf (GlobalSchedule_allWorkers this).

(** ** GlobalSchedule::handleException *)

(** [excpt] is the caller's in/out slot: the value returned is what the
    slot holds after the call. *)
Definition handleException (this : GlobalSchedule) (globalContext : option GlobalContext)
    (weakToken : ServiceWeakToken) (cleaningUpAfterException : bool)
    (excpt : exception_ptr) : M exception_ptr :=
  excpt <-
    try_catch_cms
      (convertException_wrap
         (match excpt with
          | Some e => throw e
          | None => fault
          end))
      (fun ex =>
         ost <- (if bool_decide (context ex = [])
                 then match globalContext with
                      | Some gc => ret (exceptionContext_ost gc)
                      | None => fault
                      end
                 else ret EmptyString) ;;
         emit (EvOperate weakToken) ;;;
         ex <- addContextAndPrintException ost ex cleaningUpAfterException ;;
         ret (Some (Cms ex))) ;;
  try_catch
    (match actReg_ this with
     | Some areg =>
         emit (EvOperate weakToken) ;;;
         match globalContext with
         | Some gc =>
             signal (EvPreGlobalEarlyTermination gc ExceptionFromThisContext)
                    (preGlobalEarlyTerminationSignal_ areg gc ExceptionFromThisContext)
         | None => fault
         end
     | None => ret tt
     end)
    (fun _ => ret tt) ;;;
  ret excpt.


(** ** Vocabulary of the statements *)

(** What [convertException::wrap] hands on for a thrown [e]. *)
Definition toCms (e : exception) : cms_Exception :=
  match e with
  | Cms ex => ex
  | Foreign what => toEDM what
  end.

(** The state after the collaborators logged [evs]. *)
Definition logging (evs : list Event) (σ : World) : World :=
  {| heap := heap σ; log := log σ ++ evs; collector := collector σ |}.

(** The state after the collector recorded [exs]. *)
Definition collecting (exs : list cms_Exception) (σ : World) : World :=
  {| heap := heap σ; log := log σ; collector := collector σ ++ exs |}.

(** The events a call added to the log, between the state [σ] it started in
    and the state [σ'] it ended in. *)
Definition newEvents (σ σ' : World) : list Event :=
  drop (length (log σ)) (log σ').

(** The label of the Worker at an address. *)
Definition labelAt (h : list Worker) (w : WorkerPtr) : option string :=
  (fun wk => moduleLabel (description wk)) <$> h !! w.

(** Every pointer of the list points to a Worker. *)
Definition validPtrs (h : list Worker) (ws : list WorkerPtr) : Prop :=
  Forall (fun w => is_Some (h !! w)) ws.

(** The first Worker of the list bound to the label. *)
Fixpoint firstLabelled (h : list Worker) (l : string) (ws : list WorkerPtr) : option WorkerPtr :=
  match ws with
  | [] => None
  | w :: rest =>
      if bool_decide (labelAt h w = Some l) then Some w else firstLabelled h l rest
  end.

(** The slot holds a Worker for the label. *)
Definition hasWorker (h : list Worker) (wm : WorkerManager) (l : string) : Prop :=
  ∃ w, w ∈ allWorkers wm ∧ labelAt h w = Some l.

(** The descriptors of the Workers at the addresses of the list. *)
Definition descriptorsAt (h : list Worker) (ws : list WorkerPtr) : list ModuleDescription :=
  omap (fun w => description <$> h !! w) ws.

(** How many descriptors of the list carry the label. *)
Definition labelCount (l : string) (ds : list ModuleDescription) : nat :=
  length (filter (fun d => moduleLabel d = l) ds).

(** Every pointer of every slot points to a Worker. *)
Definition validSlots (h : list Worker) (wms : list WorkerManager) : Prop :=
  Forall (fun wm => validPtrs h (allWorkers wm)) wms.

(** The labels a slot binds, Worker by Worker. *)
Definition slotLabels (h : list Worker) (wm : WorkerManager) : list string :=
  omap (labelAt h) (allWorkers wm).

(** The labels of a slot after a Worker for [l] was requested. *)
Definition add_label (l : string) (ls : list string) : list string :=
  if decide (l ∈ ls) then ls else ls ++ [l].

(** The labels bound after a Worker was requested, in turn, for the label
    [key x] of each [x] of [xs] that has one. *)
Definition requested {A} (key : A -> option string) (ls : list string) (xs : list A) : list string :=
  foldl (fun ls x => from_option (fun l => add_label l ls) ls (key x)) ls xs.

(** A loop body that requests a Worker for [l] from the slot it is given:
    when it returns, the heap was only extended, the slot's pointers are
    live and the slot binds what it bound before and [l]. *)
Definition requests (body : WorkerManager -> M WorkerManager) (l : string) : Prop :=
  ∀ wm σ wm' σ',
    validPtrs (heap σ) (allWorkers wm) →
    body wm σ = (Ok wm', σ') →
    heap σ `prefix_of` heap σ' ∧
    validPtrs (heap σ') (allWorkers wm') ∧
    slotLabels (heap σ') wm' = add_label l (slotLabels (heap σ) wm).

(** The slots are [n], their pointers are live and each binds exactly the
    labels [ls]. *)
Definition populated (n : nat) (ls : list string) (wms : list WorkerManager) (σ : World) : Prop :=
  length wms = n ∧
  validSlots (heap σ) wms ∧
  Forall (fun wm => slotLabels (heap σ) wm = ls) wms.

(** The symmetry invariant: a label bound in one slot is bound in every
    slot. *)
Definition symmetric (h : list Worker) (wms : list WorkerManager) : Prop :=
  ∀ l wm1 wm2, wm1 ∈ wms → wm2 ∈ wms → hasWorker h wm1 l → hasWorker h wm2 l.

(** The SlotManagers whose begin-job was run, in order. *)
Definition begunManagers (evs : list Event) : list WorkerManager :=
  omap (fun ev => match ev with EvManagerBeginJob wm _ => Some wm | _ => None end) evs.

(** The Workers whose begin-job was invoked, in order, one entry per
    invocation. *)
Definition begunWorkers (evs : list Event) : list WorkerPtr :=
  omap (fun ev => match ev with EvWorkerBeginJob w _ _ => Some w | _ => None end) evs.

(** The number of begin-job invocations a Worker received. *)
Definition beginJobCalls (w : WorkerPtr) (evs : list Event) : nat :=
  length (filter (fun w' => w' = w) (begunWorkers evs)).

(** The Workers [replaceModuleFor] was applied to, in order. *)
Definition replacedWorkers (evs : list Event) : list WorkerPtr :=
  omap (fun ev => match ev with EvReplaceModuleFor w _ => Some w | _ => None end) evs.

(** A Worker with its implementation handle swapped for [m]. *)
Definition withModule (m : Module) (wk : Worker) : Worker :=
  {| description := description wk; module_ := m |}.

(** The heap after the Worker at [w] had its handle swapped for [m]. *)
Definition setModule (m : Module) (h : list Worker) (w : WorkerPtr) : list Worker :=
  alter (withModule m) w h.

(** The Worker [replaceModule] takes for each slot in turn, [found] being
    what the search left from the slots before: the slot's first Worker
    bound to the label, else [found]; the list ends where there is
    none. *)
Fixpoint replaceTargets (h : list Worker) (l : string) (wms : list WorkerManager)
    (found : option WorkerPtr) : list WorkerPtr :=
  match wms with
  | [] => []
  | wm :: rest =>
      match from_option Some found (firstLabelled h l (allWorkers wm)) with
      | Some w => w :: replaceTargets h l rest (Some w)
      | None => []
      end
  end.

(** What is logged when the Workers [ts] are replaced for the slots
    numbered from [k] on: a replacement each, and a begin-job at the slot
    numbered [job]. *)
Fixpoint replaceEvents (m : Module) (gc : GlobalContext) (job k : Z)
    (ts : list WorkerPtr) : list Event :=
  match ts with
  | [] => []
  | w :: rest =>
      EvReplaceModuleFor w m
      :: (if (k =? job)%Z then [EvWorkerBeginJob w m gc] else [])
      ++ replaceEvents m gc job (k + 1) rest
  end.

(** The context enrichment of [handleException], on the exception as
    [convertException::wrap] hands it on. *)
Definition enriched (gc : GlobalContext) (ex : cms_Exception) : cms_Exception :=
  match context ex with
  | [] =>
      match exceptionContext_ost gc with
      | EmptyString => ex
      | text => addContext ex text
      end
  | _ :: _ => ex
  end.

(** The failures the Workers' end-jobs raise, as the slot collects them. *)
Definition endJobFailures (h : list Worker) (ws : list WorkerPtr) : list cms_Exception :=
  omap (fun w => h !! w ≫= fun wk => toCms <$> onEndJob (module_ wk)) ws.

(** The SlotManagers whose end-job was run, in order. *)
Definition endedManagers (evs : list Event) : list WorkerManager :=
  omap (fun ev => match ev with EvManagerEndJob wm _ => Some wm | _ => None end) evs.

(** The Workers whose end-job was invoked, in order. *)
Definition endedWorkers (evs : list Event) : list WorkerPtr :=
  omap (fun ev => match ev with EvWorkerEndJob w _ _ => Some w | _ => None end) evs.


(** The block the label has, if any, is tracked and the registry builds a
    module from it. *)
Definition usable (modReg : ModuleRegistry) (proc_pset : ParameterSet) (l : string) : Prop :=
  ∀ pset, proc_pset l = Some pset → isTracked pset = true ∧ ∃ m, modReg l pset = inr m.

(** The slot without the first Worker it binds to the label. *)
Definition withoutLabel (h : list Worker) (l : string) (wm : WorkerManager) : WorkerManager :=
  match firstLabelled h l (allWorkers wm) with
  | Some w => {| allWorkers := filter (fun p => p ≠ w) (allWorkers wm) |}
  | None => wm
  end.

End Scheduler.

(** ** Sample configurations *)

(** Concrete inputs on which the statements below are exercised. *)

Definition sample_headers : Headers :=
  {| numberOfConcurrentProcessBlocks_ := 1;
     toEDM := fun what =>
       {| category := "StdException"; message := what; context := [] |};
     exceptionContext := fun ex gc stage => addContext ex stage;
     exceptionContext_ost := fun gc =>
       match transition gc with
       | kBeginJob => "Processing begin Job"
       | kEndJob => "Processing end Job"
       end |}.

Definition sample_module (label : string) (begins ends : option exception) : Module :=
  {| moduleDescription := {| moduleLabel := label; moduleName := "Producer" |};
     onBeginJob := begins;
     onEndJob := ends |}.

Definition sample_modReg : ModuleRegistry :=
  fun label pset => inr (sample_module label None None).

(** Blocks for the labels [a] and [b] only. *)
Definition sample_pset : ParameterSet :=
  fun label =>
    if (String.eqb label "a" || String.eqb label "b")%bool
    then Some {| isTracked := true; module_type := "Producer" |}
    else None.

Definition quiet_actReg : ActivityRegistry :=
  {| preBeginJobSignal_ := fun _ => None;
     postBeginJobSignal_ := None;
     preEndJobSignal_ := None;
     postEndJobSignal_ := None;
     preGlobalEarlyTerminationSignal_ := fun _ _ => None |}.

(** Every signal throws. *)
Definition failing_actReg : ActivityRegistry :=
  {| preBeginJobSignal_ := fun _ => Some (Foreign "pre begin failed");
     postBeginJobSignal_ :=
       Some (Cms {| category := "Service"; message := "post begin failed"; context := [] |});
     preEndJobSignal_ := Some (Foreign "pre end failed");
     postEndJobSignal_ :=
       Some (Cms {| category := "Service"; message := "post end failed"; context := [] |});
     preGlobalEarlyTerminationSignal_ := fun _ _ => Some (Foreign "broadcast failed") |}.

Definition sample_pc : ProcessContext := {| processName := "TEST" |}.

Definition empty_world : World := {| heap := []; log := []; collector := [] |}.

(** Two lumi slots, one run slot, one process-block slot and the job slot;
    [p] is the label of a path-status inserter and has no block. *)
Definition sample_built : Result GlobalSchedule * World :=
  GlobalSchedule_new (hdr := sample_headers)
    (Some (sample_module "TriggerResults" None None))
    [sample_module "p" None None]
    [sample_module "e" None None]
    sample_modReg ["a"; "p"; "b"] sample_pset
    {| numberOfLuminosityBlocks := 2; numberOfRuns := 1 |}
    (Some quiet_actReg) sample_pc empty_world.

Definition no_schedule : GlobalSchedule :=
  {| actReg_ := None; processContext_ := sample_pc;
     numberOfConcurrentLumis_ := 0; numberOfConcurrentRuns_ := 0;
     workerManagers_ := [] |}.

Definition sample_schedule : GlobalSchedule :=
  match fst sample_built with
  | Ok this => this
  | _ => no_schedule
  end.

Definition sample_world : World := snd sample_built.

(** The sample schedule with the signals that throw. *)
Definition failing_schedule : GlobalSchedule :=
  {| actReg_ := Some failing_actReg;
     processContext_ := processContext_ sample_schedule;
     numberOfConcurrentLumis_ := numberOfConcurrentLumis_ sample_schedule;
     numberOfConcurrentRuns_ := numberOfConcurrentRuns_ sample_schedule;
     workerManagers_ := workerManagers_ sample_schedule |}.

(** A replacement whose begin-job throws. *)
Definition sample_holder : ModuleHolder :=
  {| m_mod := sample_module "a" (Some (Foreign "begin failed")) None |}.

(** A schedule that violates the symmetry: two slots, the job slot being
    the second, and a Worker for [a] in the first slot only. *)
Definition lopsided_world : World :=
  {| heap := [ {| description := {| moduleLabel := "a"; moduleName := "Producer" |};
                  module_ := sample_module "a" None None |} ];
     log := []; collector := [] |}.

Definition lopsided_schedule : GlobalSchedule :=
  {| actReg_ := Some quiet_actReg; processContext_ := sample_pc;
     numberOfConcurrentLumis_ := 0; numberOfConcurrentRuns_ := 0;
     workerManagers_ := [ {| allWorkers := [0] |}; {| allWorkers := [] |} ] |}.


(** A block for [a] that is not tracked. *)
Definition untracked_pset : ParameterSet :=
  fun label =>
    if String.eqb label "a"
    then Some {| isTracked := false; module_type := "Producer" |}
    else None.

(** A replacement that begins and ends without failure. *)
Definition quiet_holder : ModuleHolder :=
  {| m_mod := sample_module "a" None None |}.

(** The sample schedule after the module [a] was deleted. *)
Definition pruned_schedule : GlobalSchedule :=
  match fst (deleteModule sample_schedule "a" sample_world) with
  | Ok this => this
  | _ => no_schedule
  end.

Section Verification.

Context {hdr : Headers}.

(** ** Running the monad *)

(** Exposes the state passing of the control structures. *)
Ltac unfold_monad :=
  unfold bind, try_catch, try_catch_cms, convertException_wrap, ret, throw, fault.

Lemma logging_nil σ : logging [] σ = σ.
Proof. destruct σ; unfold logging; simpl; by rewrite app_nil_r. Qed.

Lemma logging_logging evs1 evs2 σ :
  logging evs2 (logging evs1 σ) = logging (evs1 ++ evs2) σ.
Proof. unfold logging; simpl; by rewrite app_assoc. Qed.

Lemma newEvents_logging evs σ : newEvents σ (logging evs σ) = evs.
Proof. unfold newEvents, logging; simpl. by rewrite drop_app_length. Qed.

Lemma bind_Ok {A B} (m : M A) (k : A → M B) σ b σ' :
  bind m k σ = (Ok b, σ') → ∃ a σ1, m σ = (Ok a, σ1) ∧ k a σ1 = (Ok b, σ').
Proof.
  unfold bind. destruct (m σ) as [[a|e|] σ1]; [|done|done]. intros H. by exists a, σ1.
Qed.

Lemma emit_logging ev σ : emit ev σ = (Ok tt, logging [ev] σ).
Proof. reflexivity. Qed.

Lemma signal_run ev slots σ :
  signal ev slots σ =
    (match slots with Some e => Throw e | None => Ok tt end, logging [ev] σ).
Proof. unfold signal, bind; simpl. by destruct slots. Qed.

(** ** handleException *)

Lemma handleException_run this gc token cleaning e σ :
  handleException this (Some gc) token cleaning (Some e) σ
    = (Ok (Some (Cms (enriched gc (toCms e)))),
       logging ([EvOperate token; EvPrintException (enriched gc (toCms e)) cleaning]
                ++ match actReg_ this with
                   | Some _ => [EvOperate token;
                                EvPreGlobalEarlyTermination gc ExceptionFromThisContext]
                   | None => []
                   end) σ).
Proof.
  assert (Hcms : ∀ ex,
    handleException this (Some gc) token cleaning (Some (Cms ex)) σ
    = (Ok (Some (Cms (enriched gc ex))),
       logging ([EvOperate token; EvPrintException (enriched gc ex) cleaning]
                ++ match actReg_ this with
                   | Some _ => [EvOperate token;
                                EvPreGlobalEarlyTermination gc ExceptionFromThisContext]
                   | None => []
                   end) σ)).
  { intros ex.
    unfold handleException, bind, try_catch_cms, try_catch, convertException_wrap, throw,
      addContextAndPrintException, bind, ret, emit, signal, bind, enriched, logging.
    simpl. destruct (context ex) eqn:Hc; simpl.
    - destruct (exceptionContext_ost gc) eqn:Ht; simpl;
        (destruct (actReg_ this) as [areg|]; simpl;
         [destruct (preGlobalEarlyTerminationSignal_ areg gc _); simpl|]);
        rewrite <- ?app_assoc; simpl; try reflexivity.
    - destruct (actReg_ this) as [areg|]; simpl;
        [destruct (preGlobalEarlyTerminationSignal_ areg gc _); simpl|];
        rewrite <- ?app_assoc; simpl; reflexivity. }
  destruct e as [ex|what]; [apply Hcms|].
  simpl toCms. rewrite <- (Hcms (toEDM what)). reflexivity.
Qed.

Lemma enriched_idempotent gc ex : enriched gc (enriched gc ex) = enriched gc ex.
Proof.
  unfold enriched. destruct (context ex) eqn:Hc; [|by rewrite Hc].
  destruct (exceptionContext_ost gc) eqn:Ht; [by rewrite Hc|].
  simpl. by rewrite Hc.
Qed.

(** C7: the enrichment of [handleException] is idempotent.  The slot holds
    a [cms::Exception] after the first call; an exception that already
    carried context is left as it was, one without context gets the text of
    the global context appended (nothing when that text is empty); and a
    second call on the result leaves the same exception, with the same
    context, in the slot. *)
Theorem handleException_enrichment_idempotent this gc token cleaning1 cleaning2 e σ :
  ∃ ex σ1 σ2,
    handleException this (Some gc) token cleaning1 (Some e) σ = (Ok (Some (Cms ex)), σ1) ∧
    handleException this (Some gc) token cleaning2 (Some (Cms ex)) σ1
      = (Ok (Some (Cms ex)), σ2) ∧
    (context (toCms e) ≠ [] → ex = toCms e) ∧
    (context (toCms e) = [] →
       ex = match exceptionContext_ost gc with
            | EmptyString => toCms e
            | text => addContext (toCms e) text
            end).
Proof.
  eexists (enriched gc (toCms e)), _, _. split_and!.
  - apply handleException_run.
  - rewrite handleException_run. simpl. by rewrite enriched_idempotent.
  - unfold enriched. by destruct (context (toCms e)).
  - unfold enriched. by intros ->.
Qed.

(** C8: whatever the early-termination broadcast does, [handleException]
    returns normally and the caller's slot holds the exception it was given
    (converted and enriched, category and message untouched); with an
    activity registry present the broadcast was the last thing done. *)
Theorem handleException_swallows_broadcast_failure this gc token cleaning e σ :
  fst (handleException this (Some gc) token cleaning (Some e) σ)
    = Ok (Some (Cms (enriched gc (toCms e)))) ∧
  category (enriched gc (toCms e)) = category (toCms e) ∧
  message (enriched gc (toCms e)) = message (toCms e) ∧
  (∀ areg, actReg_ this = Some areg →
     last (log (snd (handleException this (Some gc) token cleaning (Some e) σ)))
       = Some (EvPreGlobalEarlyTermination gc ExceptionFromThisContext)).
Proof.
  rewrite handleException_run. split_and!; try done.
  - unfold enriched. destruct (context (toCms e)); [|done].
    by destruct (exceptionContext_ost gc).
  - unfold enriched. destruct (context (toCms e)); [|done].
    by destruct (exceptionContext_ost gc).
  - intros areg ->. simpl.
    by rewrite last_app.
Qed.


(** ** beginJob *)

Lemma Worker_beginJob_run w gc σ :
  Worker_beginJob w gc σ =
    match heap σ !! w with
    | Some wk =>
        (match onBeginJob (module_ wk) with Some e => Throw e | None => Ok tt end,
         logging [EvWorkerBeginJob w (module_ wk) gc] σ)
    | None => (Fault, σ)
    end.
Proof.
  unfold Worker_beginJob, bind, deref.
  destruct (heap σ !! w); [apply signal_run|done].
Qed.

Lemma forEachWorker_beginJob_run gc ws σ :
  ∃ r evs,
    forEachWorker (fun w => Worker_beginJob w gc) ws σ = (r, logging evs σ) ∧
    Forall (fun ev => ∃ w m, ev = EvWorkerBeginJob w m gc ∧ w ∈ ws) evs.
Proof.
  revert σ. induction ws as [|w ws IH]; intros σ; simpl.
  - exists (Ok tt), []. by rewrite logging_nil.
  - unfold bind at 1. rewrite Worker_beginJob_run.
    destruct (heap σ !! w) as [wk|] eqn:Hw.
    + destruct (onBeginJob (module_ wk)) as [e|].
      * exists (Throw e), [EvWorkerBeginJob w (module_ wk) gc]. split; [done|].
        repeat constructor. exists w, (module_ wk). split; [done|]. left.
      * destruct (IH (logging [EvWorkerBeginJob w (module_ wk) gc] σ)) as (r & evs & -> & Hevs).
        exists r, (EvWorkerBeginJob w (module_ wk) gc :: evs).
        rewrite logging_logging. split; [done|]. constructor.
        -- exists w, (module_ wk). split; [done|]. left.
        -- eapply Forall_impl; [exact Hevs|]. intros ev (w' & m & -> & Hin).
           exists w', m. split; [done|]. by right.
    + exists Fault, []. by rewrite logging_nil.
Qed.

Lemma WorkerManager_beginJob_run wm gc σ :
  ∃ r evs,
    WorkerManager_beginJob wm gc σ = (r, logging (EvManagerBeginJob wm gc :: evs) σ) ∧
    Forall (fun ev => ∃ w m, ev = EvWorkerBeginJob w m gc ∧ w ∈ allWorkers wm) evs.
Proof.
  unfold WorkerManager_beginJob, bind. rewrite emit_logging.
  destruct (forEachWorker_beginJob_run gc (allWorkers wm) (logging [EvManagerBeginJob wm gc] σ))
    as (r & evs & Hrun & Hevs).
  exists r, evs. rewrite Hrun, logging_logging. split; [|done].
  by destruct r.
Qed.

Lemma beginJob_run this areg pc wm σ :
  actReg_ this = Some areg →
  workerManagers_ this !! Z.to_nat (jobSlotIndex this) = Some wm →
  let gc := mk_GlobalContext kBeginJob (processContext_ this) in
  beginJob this pc σ =
    match preBeginJobSignal_ areg pc with
    | Some e =>
        (Throw (Cms (exceptionContext (toCms e) gc
                       "Handling pre signal, likely in a service function")),
         logging [EvPreBeginJob pc; EvPostBeginJob] σ)
    | None =>
        match WorkerManager_beginJob wm gc (logging [EvPreBeginJob pc] σ) with
        | (Fault, σ2) => (Fault, σ2)
        | (Throw e, σ2) => (Throw e, logging [EvPostBeginJob] σ2)
        | (Ok _, σ2) =>
            (match postBeginJobSignal_ areg with
             | Some e =>
                 Throw (Cms (exceptionContext (toCms e) gc
                               "Handling post signal, likely in a service function"))
             | None => Ok tt
             end, logging [EvPostBeginJob] σ2)
        end
    end.
Proof.
  intros Hareg Hwm gc.
  unfold beginJob, actReg, at_. rewrite Hareg, Hwm. fold gc.
  unfold_monad.
  rewrite !signal_run.
  destruct (preBeginJobSignal_ areg pc) as [[ex|what]|]; simpl.
  - rewrite signal_run, logging_logging.
    by destruct (postBeginJobSignal_ areg) as [[ex'|what']|].
  - rewrite signal_run, logging_logging.
    by destruct (postBeginJobSignal_ areg) as [[ex'|what']|].
  - destruct (WorkerManager_beginJob wm gc (logging [EvPreBeginJob pc] σ)) as [[[]|e|] σ2];
      simpl; rewrite ?signal_run;
      by destruct (postBeginJobSignal_ areg) as [[ex'|what']|].
Qed.


Lemma begunManagers_app evs1 evs2 :
  begunManagers (evs1 ++ evs2) = begunManagers evs1 ++ begunManagers evs2.
Proof. apply omap_app. Qed.

Lemma begunWorkers_app evs1 evs2 :
  begunWorkers (evs1 ++ evs2) = begunWorkers evs1 ++ begunWorkers evs2.
Proof. apply omap_app. Qed.

Lemma worker_events_begun gc (ws : list WorkerPtr) evs :
  Forall (fun ev => ∃ w m, ev = EvWorkerBeginJob w m gc ∧ w ∈ ws) evs →
  begunManagers evs = [] ∧ Forall (fun w => w ∈ ws) (begunWorkers evs).
Proof.
  induction 1 as [|ev evs (w & m & -> & Hin) _ [IH1 IH2]]; [done|].
  split; [done|]. by constructor.
Qed.

Lemma beginJobCalls_not_begun w evs :
  w ∉ begunWorkers evs → beginJobCalls w evs = 0.
Proof.
  unfold beginJobCalls. induction (begunWorkers evs) as [|w' l IH]; [done|].
  intros Hnin. apply not_elem_of_cons in Hnin as [Hne Hnin].
  rewrite filter_cons_False by done. by apply IH.
Qed.

(** C2: the staging of failures in [beginJob].  When the pre-begin-job
    signal throws, the only things done are the two signals (the job slot's
    begin-job is not run) and the exception thrown is the pre-signal's,
    whatever the post-signal does.  When it returns, the job slot's
    begin-job is run and then, unless that left defined behaviour, the
    post-signal: a failure of the slot's begin-job is the one thrown,
    whatever the post-signal does; otherwise a failure of the post-signal
    is thrown; otherwise the call returns. *)
Theorem beginJob_failure_staging this areg pc wm σ :
  actReg_ this = Some areg →
  workerManagers_ this !! Z.to_nat (jobSlotIndex this) = Some wm →
  let gc := mk_GlobalContext kBeginJob (processContext_ this) in
  let slot := WorkerManager_beginJob wm gc (logging [EvPreBeginJob pc] σ) in
  (∀ e, preBeginJobSignal_ areg pc = Some e →
     beginJob this pc σ =
       (Throw (Cms (exceptionContext (toCms e) gc
                      "Handling pre signal, likely in a service function")),
        logging [EvPreBeginJob pc; EvPostBeginJob] σ)) ∧
  (preBeginJobSignal_ areg pc = None → fst slot ≠ Fault →
     snd (beginJob this pc σ) = logging [EvPostBeginJob] (snd slot) ∧
     (∀ e, fst slot = Throw e → fst (beginJob this pc σ) = Throw e) ∧
     (∀ e, fst slot = Ok tt → postBeginJobSignal_ areg = Some e →
        fst (beginJob this pc σ) =
          Throw (Cms (exceptionContext (toCms e) gc
                        "Handling post signal, likely in a service function"))) ∧
     (fst slot = Ok tt → postBeginJobSignal_ areg = None →
        fst (beginJob this pc σ) = Ok tt)).
Proof.
  intros Hareg Hwm gc slot. rewrite (beginJob_run this areg pc wm σ Hareg Hwm).
  fold gc. fold slot. split.
  - by intros e ->.
  - intros -> Hslot. destruct slot as [[[]|e|] σ2]; simpl in *; [| |done].
    + split_and!; [done|done| |].
      * by intros e _ ->.
      * by intros _ ->.
    + split_and!; [done| |done|done].
      by intros e' [= ->].
Qed.

(** C3 (as amended): [beginJob] runs the begin-job transition against the
    SlotManager at the job-slot index and no other, once when the
    pre-begin-job signal returns and not at all when it throws; a Worker
    that the job slot's manager does not hold receives no begin-job
    invocation from the call. *)
Theorem beginJob_job_slot_only this areg pc wm σ :
  actReg_ this = Some areg →
  workerManagers_ this !! Z.to_nat (jobSlotIndex this) = Some wm →
  let evs := newEvents σ (snd (beginJob this pc σ)) in
  begunManagers evs =
    match preBeginJobSignal_ areg pc with
    | None => [wm]
    | Some _ => []
    end ∧
  (∀ w, w ∉ allWorkers wm → beginJobCalls w evs = 0).
Proof.
  intros Hareg Hwm. rewrite (beginJob_run this areg pc wm σ Hareg Hwm).
  destruct (preBeginJobSignal_ areg pc) as [e|]; simpl.
  - rewrite newEvents_logging. split; [done|]. intros w _.
    by apply beginJobCalls_not_begun, not_elem_of_nil.
  - destruct (WorkerManager_beginJob_run wm
               (mk_GlobalContext kBeginJob (processContext_ this))
               (logging [EvPreBeginJob pc] σ)) as (r & evs' & -> & Hevs).
    apply worker_events_begun in Hevs as [Hm Hw].
    assert (Hcalls : ∀ evs, begunWorkers evs = begunWorkers evs' →
              ∀ w, w ∉ allWorkers wm → beginJobCalls w evs = 0).
    { intros evs Heq w Hnin. apply beginJobCalls_not_begun. rewrite Heq.
      intros Hin. apply Hnin. by eapply (proj1 (Forall_forall _ _) Hw). }
    destruct r as [[]|e|]; simpl; rewrite !logging_logging, newEvents_logging;
      (split;
       [ rewrite !begunManagers_app; simpl; by rewrite Hm
       | apply Hcalls; rewrite !begunWorkers_app; simpl; by rewrite ?app_nil_r ]).
Qed.


(** ** endJob *)

Lemma collecting_nil σ : collecting [] σ = σ.
Proof. destruct σ; unfold collecting; simpl; by rewrite app_nil_r. Qed.

Lemma Worker_endJob_run w gc σ :
  try_catch_cms (convertException_wrap (Worker_endJob w gc)) (fun ex => addException ex) σ =
    match heap σ !! w with
    | Some wk =>
        (Ok tt,
         collecting (from_option (fun e => [toCms e]) [] (onEndJob (module_ wk)))
                    (logging [EvWorkerEndJob w (module_ wk) gc] σ))
    | None => (Fault, σ)
    end.
Proof.
  unfold try_catch_cms, convertException_wrap, Worker_endJob, bind, deref.
  destruct (heap σ !! w) as [wk|]; [|done].
  rewrite signal_run. destruct (onEndJob (module_ wk)) as [[ex|what]|]; simpl; try done.
  by rewrite collecting_nil.
Qed.

Lemma forEachWorker_endJob_run gc ws σ :
  ∃ r evs exs,
    forEachWorker
      (fun w => try_catch_cms (convertException_wrap (Worker_endJob w gc))
                              (fun ex => addException ex)) ws σ
    = (r, collecting exs (logging evs σ)) ∧
    (∀ e, r ≠ Throw e) ∧
    (validPtrs (heap σ) ws → r = Ok tt ∧ exs = endJobFailures (heap σ) ws).
Proof.
  revert σ. induction ws as [|w ws IH]; intros σ; simpl.
  - exists (Ok tt), [], []. by rewrite logging_nil, collecting_nil.
  - unfold bind at 1. rewrite Worker_endJob_run.
    destruct (heap σ !! w) as [wk|] eqn:Hw.
    + set (σ1 := collecting _ _).
      destruct (IH σ1) as (r & evs & exs & -> & Hr & Hvalid).
      exists r, (EvWorkerEndJob w (module_ wk) gc :: evs),
        (from_option (fun e => [toCms e]) [] (onEndJob (module_ wk)) ++ exs).
      split_and!.
      * unfold σ1, collecting, logging; simpl. rewrite <- !app_assoc. by destruct r.
      * done.
      * intros Hv. apply Forall_cons in Hv as [_ Hv].
        destruct (Hvalid Hv) as [-> ->]. split; [done|].
        unfold endJobFailures. simpl. rewrite ?Hw. simpl.
        by destruct (onEndJob (module_ wk)).
    + exists Fault, [], []. rewrite logging_nil, collecting_nil. split_and!; [done|done|].
      intros Hv. apply Forall_cons in Hv as [[? Hv] _]. congruence.
Qed.

Lemma WorkerManager_endJob_run wm gc σ :
  ∃ r evs exs,
    WorkerManager_endJob wm gc σ = (r, collecting exs (logging evs σ)) ∧
    (∀ e, r ≠ Throw e) ∧
    (validPtrs (heap σ) (allWorkers wm) →
       r = Ok tt ∧ exs = endJobFailures (heap σ) (allWorkers wm)).
Proof.
  unfold WorkerManager_endJob, bind. rewrite emit_logging.
  destruct (forEachWorker_endJob_run gc (allWorkers wm) (logging [EvManagerEndJob wm gc] σ))
    as (r & evs & exs & Hrun & Hr & Hv).
  exists r, (EvManagerEndJob wm gc :: evs), exs.
  rewrite Hrun, logging_logging. split_and!; [by destruct r|done|done].
Qed.

Lemma endJob_run this areg wm σ :
  actReg_ this = Some areg →
  workerManagers_ this !! Z.to_nat (jobSlotIndex this) = Some wm →
  let gc := mk_GlobalContext kEndJob (processContext_ this) in
  endJob this σ =
    match preEndJobSignal_ areg with
    | Some e =>
        (Ok tt,
         collecting [exceptionContext (toCms e) gc
                       "Handling pre signal, likely in a service function"]
                    (logging [EvPreEndJob; EvPostEndJob] σ))
    | None =>
        match WorkerManager_endJob wm gc (logging [EvPreEndJob] σ) with
        | (Fault, σ2) => (Fault, σ2)
        | (Throw e, σ2) => (Ok tt, collecting [toCms e] (logging [EvPostEndJob] σ2))
        | (Ok _, σ2) =>
            (Ok tt,
             collecting
               match postEndJobSignal_ areg with
               | Some e => [exceptionContext (toCms e) gc
                              "Handling post signal, likely in a service function"]
               | None => []
               end
               (logging [EvPostEndJob] σ2))
        end
    end.
Proof.
  intros Hareg Hwm gc.
  unfold endJob, actReg, at_. rewrite Hareg, Hwm. fold gc.
  unfold ExceptionCollector_call. unfold_monad.
  rewrite !signal_run.
  destruct (preEndJobSignal_ areg) as [[ex|what]|]; simpl.
  - rewrite signal_run, logging_logging.
    by destruct (postEndJobSignal_ areg) as [[ex'|what']|].
  - rewrite signal_run, logging_logging.
    by destruct (postEndJobSignal_ areg) as [[ex'|what']|].
  - destruct (WorkerManager_endJob wm gc (logging [EvPreEndJob] σ)) as [[[]|e|] σ2];
      simpl; rewrite ?signal_run; [| |done].
    + destruct (postEndJobSignal_ areg) as [[ex'|what']|]; simpl; try done.
      by rewrite collecting_nil.
    + by destruct (postEndJobSignal_ areg) as [[ex'|what']|], e.
Qed.

(** [endJob] does not throw, in any state. *)
Lemma endJob_no_throw this σ e : fst (endJob this σ) ≠ Throw e.
Proof.
  destruct (actReg_ this) as [areg|] eqn:Hareg.
  - destruct (workerManagers_ this !! Z.to_nat (jobSlotIndex this)) as [wm|] eqn:Hwm.
    + rewrite (endJob_run this areg wm σ Hareg Hwm).
      destruct (preEndJobSignal_ areg); [done|].
      by destruct (WorkerManager_endJob _ _ _) as [[[]|e'|] σ2].
    + unfold endJob, actReg, at_. rewrite Hareg, Hwm.
      unfold ExceptionCollector_call. unfold_monad.
      rewrite !signal_run.
      by destruct (preEndJobSignal_ areg) as [[ex|what]|]; simpl; rewrite ?signal_run;
        try destruct (postEndJobSignal_ areg) as [[ex'|what']|].
  - unfold endJob, actReg. rewrite Hareg.
    by unfold_monad.
Qed.

(** C4: [endJob] never throws.  In a state where the job slot exists and
    its Workers are live it returns normally, having handed to the
    collector the per-Worker end-job failures (when the pre-signal
    returned) followed by at most one failure of its own stages: the
    pre-signal's if that threw, whatever the post-signal did, else the
    post-signal's. *)
Theorem endJob_reports_to_collector this σ :
  (∀ e, fst (endJob this σ) ≠ Throw e) ∧
  (∀ areg wm,
     actReg_ this = Some areg →
     workerManagers_ this !! Z.to_nat (jobSlotIndex this) = Some wm →
     validPtrs (heap σ) (allWorkers wm) →
     let gc := mk_GlobalContext kEndJob (processContext_ this) in
     fst (endJob this σ) = Ok tt ∧
     heap (snd (endJob this σ)) = heap σ ∧
     collector (snd (endJob this σ)) =
       collector σ ++
       match preEndJobSignal_ areg, postEndJobSignal_ areg with
       | Some e, _ =>
           [exceptionContext (toCms e) gc "Handling pre signal, likely in a service function"]
       | None, Some e =>
           endJobFailures (heap σ) (allWorkers wm) ++
           [exceptionContext (toCms e) gc "Handling post signal, likely in a service function"]
       | None, None => endJobFailures (heap σ) (allWorkers wm)
       end).
Proof.
  split; [intros e; apply endJob_no_throw|].
  intros areg wm Hareg Hwm Hvalid gc.
  rewrite (endJob_run this areg wm σ Hareg Hwm). fold gc.
  destruct (preEndJobSignal_ areg) as [e|]; [done|].
  destruct (WorkerManager_endJob_run wm gc (logging [EvPreEndJob] σ))
    as (r & evs & exs & -> & _ & Hv).
  destruct (Hv Hvalid) as [-> ->]. simpl.
  destruct (postEndJobSignal_ areg) as [e|]; simpl.
  - by rewrite <- app_assoc.
  - by rewrite app_nil_r.
Qed.


(** ** Searching a slot for a label *)

Lemma firstLabelled_None h l (ws : list WorkerPtr) :
  firstLabelled h l ws = None ↔ ∀ w, w ∈ ws → labelAt h w ≠ Some l.
Proof.
  induction ws as [|w ws IH]; simpl.
  - split; [|done]. intros _ w Hw. by apply elem_of_nil in Hw.
  - case_bool_decide as Hl.
    + split; [done|]. intros H. destruct (H w); [left|done].
    + rewrite IH. split.
      * intros H w' Hw'. apply elem_of_cons in Hw' as [->|Hw']; [done|by apply H].
      * intros H w' Hw'. apply H. by right.
Qed.

Lemma firstLabelled_Some h l (ws : list WorkerPtr) w :
  firstLabelled h l ws = Some w → w ∈ ws ∧ labelAt h w = Some l.
Proof.
  induction ws as [|w' ws IH]; simpl; [done|].
  case_bool_decide as Hl.
  - intros [= ->]. split; [left|done].
  - intros H. destruct (IH H). split; [by right|done].
Qed.

Lemma searchLabel_run l ws found σ :
  validPtrs (heap σ) ws →
  searchLabel l ws found σ
    = (Ok (from_option Some found (firstLabelled (heap σ) l ws)), σ).
Proof.
  induction 1 as [|w ws [wk Hw] _ IH]; simpl; [done|].
  unfold bind, deref. rewrite Hw. unfold labelAt. rewrite Hw. simpl.
  destruct (String.eqb_spec (moduleLabel (description wk)) l) as [->|Hne].
  - by rewrite bool_decide_eq_true_2.
  - rewrite bool_decide_eq_false_2; [done|]. by intros [= ?].
Qed.

Lemma not_hasWorker_firstLabelled h wm l :
  ¬ hasWorker h wm l → firstLabelled h l (allWorkers wm) = None.
Proof.
  intros Hno. apply firstLabelled_None. intros w Hw Hl. apply Hno. by exists w.
Qed.

(** ** Unknown labels *)

Lemma forEachManager_unchanged body wms σ :
  Forall (fun wm => body wm σ = (Ok wm, σ)) wms →
  forEachManager body wms σ = (Ok wms, σ).
Proof.
  induction 1 as [|wm wms Hwm _ IH]; simpl; [done|].
  unfold bind at 1. rewrite Hwm. unfold bind at 1. by rewrite IH.
Qed.

(** C6: for a label bound to no Worker, [replaceModule] and [deleteModule]
    return normally and leave the state as it was: the heap of Workers,
    the slots of the scheduler, the log and the collector; so
    [getAllModuleDescriptions] gives after either call what it gave
    before. *)
Theorem unknown_label_no_op this iMod iLabel σ :
  validSlots (heap σ) (workerManagers_ this) →
  (∀ wm, wm ∈ workerManagers_ this → ¬ hasWorker (heap σ) wm iLabel) →
  replaceModule this iMod iLabel σ = (Ok tt, σ) ∧
  deleteModule this iLabel σ = (Ok this, σ) ∧
  getAllModuleDescriptions this (snd (replaceModule this iMod iLabel σ))
    = getAllModuleDescriptions this σ ∧
  match deleteModule this iLabel σ with
  | (Ok this', σ') =>
      getAllModuleDescriptions this' σ' = getAllModuleDescriptions this σ
  | _ => False
  end.
Proof.
  intros Hvalid Hno.
  assert (Hreplace : replaceModule this iMod iLabel σ = (Ok tt, σ)).
  { unfold replaceModule. destruct (workerManagers_ this) as [|wm rest]; [done|].
    simpl. unfold bind. apply Forall_cons in Hvalid as [Hwm _].
    rewrite (searchLabel_run _ _ _ _ Hwm).
    rewrite not_hasWorker_firstLabelled; [done|]. apply Hno. left. }
  assert (Hdelete : deleteModule this iLabel σ = (Ok this, σ)).
  { unfold deleteModule, bind.
    rewrite forEachManager_unchanged; [by destruct this|].
    apply Forall_forall. intros wm Hwm.
    unfold WorkerManager_deleteModuleIfExists, bind.
    rewrite searchLabel_run by (by eapply (proj1 (Forall_forall _ _) Hvalid)).
    rewrite not_hasWorker_firstLabelled; [done|]. by apply Hno. }
  rewrite Hreplace, Hdelete. done.
Qed.

(** ** getAllModuleDescriptions *)

Lemma descriptionsOf_run ws σ :
  validPtrs (heap σ) ws →
  descriptionsOf ws σ = (Ok (descriptorsAt (heap σ) ws), σ).
Proof.
  induction 1 as [|w ws [wk Hw] _ IH]; simpl; [done|].
  unfold bind at 1. unfold deref. rewrite Hw. unfold bind at 1. rewrite IH.
  unfold descriptorsAt. simpl. by rewrite ?Hw.
Qed.

Lemma descriptorsAt_valid_length h ws :
  validPtrs h ws → length (descriptorsAt h ws) = length ws.
Proof.
  induction 1 as [|w ws [wk Hw] _ IH]; [done|].
  unfold descriptorsAt in *. simpl. rewrite Hw. simpl. by f_equal.
Qed.

Lemma descriptorsAt_concat h (wss : list (list WorkerPtr)) :
  descriptorsAt h (concat wss) = concat (descriptorsAt h <$> wss).
Proof.
  induction wss as [|ws wss IH]; [done|].
  simpl. unfold descriptorsAt in *. by rewrite omap_app, IH.
Qed.

Lemma labelCount_app l ds1 ds2 :
  labelCount l (ds1 ++ ds2) = labelCount l ds1 + labelCount l ds2.
Proof. unfold labelCount. by rewrite filter_app, length_app. Qed.

(** C9: with the Workers of all slots live, [getAllModuleDescriptions]
    returns, slot after slot, the descriptor of every Worker of every slot:
    as many descriptors as the slots hold Workers, and for a label that
    every slot binds once, one descriptor per slot; the state is left as it
    was. *)
Theorem getAllModuleDescriptions_every_slot this σ :
  validSlots (heap σ) (workerManagers_ this) →
  ∃ ds,
    getAllModuleDescriptions this σ = (Ok ds, σ) ∧
    ds = concat ((fun wm => descriptorsAt (heap σ) (allWorkers wm)) <$> workerManagers_ this) ∧
    length ds = sum_list ((fun wm => length (allWorkers wm)) <$> workerManagers_ this) ∧
    (∀ l,
       Forall (fun wm => labelCount l (descriptorsAt (heap σ) (allWorkers wm)) = 1)
              (workerManagers_ this) →
       labelCount l ds = length (workerManagers_ this)).
Proof.
  intros Hvalid.
  exists (concat ((fun wm => descriptorsAt (heap σ) (allWorkers wm)) <$> workerManagers_ this)).
  split_and!.
  - unfold getAllModuleDescriptions. rewrite descriptionsOf_run.
    + unfold GlobalSchedule_allWorkers. rewrite descriptorsAt_concat.
      by rewrite <- list_fmap_compose.
    + unfold GlobalSchedule_allWorkers, validPtrs. apply Forall_concat.
      by apply Forall_fmap.
  - done.
  - induction Hvalid as [|wm wms Hwm _ IH]; [done|].
    rewrite !fmap_cons. simpl concat. simpl sum_list.
    by rewrite length_app, IH, descriptorsAt_valid_length.
  - intros l Hl. clear Hvalid. induction Hl as [|wm wms Hwm _ IH]; [done|].
    rewrite fmap_cons. simpl concat. rewrite labelCount_app, Hwm, IH. done.
Qed.


(** ** replaceModule *)

Lemma insert_withModule m h w wk :
  h !! w = Some wk → <[w := withModule m wk]> h = setModule m h w.
Proof.
  intros Hw. unfold setModule. apply list_eq. intros i.
  destruct (decide (w = i)) as [Heq|Hne].
  - subst i. rewrite list_lookup_insert_eq by (by eapply lookup_lt_Some).
    by rewrite list_lookup_alter_eq, Hw.
  - by rewrite list_lookup_insert_ne, list_lookup_alter_ne.
Qed.

Lemma lookup_setModule m h w i :
  setModule m h w !! i
    = if decide (w = i) then withModule m <$> h !! i else h !! i.
Proof.
  unfold setModule. destruct (decide (w = i)) as [Heq|Hne].
  - subst i. by rewrite list_lookup_alter_eq.
  - by rewrite list_lookup_alter_ne.
Qed.

Lemma labelAt_setModule m h w i : labelAt (setModule m h w) i = labelAt h i.
Proof.
  unfold labelAt. rewrite lookup_setModule. destruct (decide (w = i)); [|done].
  by destruct (h !! i).
Qed.

Lemma validPtrs_setModule m h w ws : validPtrs h ws → validPtrs (setModule m h w) ws.
Proof.
  intros H. eapply Forall_impl; [exact H|]. intros i [wk Hi]. rewrite lookup_setModule.
  destruct (decide (w = i)); rewrite Hi; by eexists.
Qed.

Lemma validSlots_setModule m h w wms : validSlots h wms → validSlots (setModule m h w) wms.
Proof.
  intros H. eapply Forall_impl; [exact H|]. intros wm. apply validPtrs_setModule.
Qed.

Lemma firstLabelled_setModule m h w l ws :
  firstLabelled (setModule m h w) l ws = firstLabelled h l ws.
Proof.
  induction ws as [|i ws IH]; [done|]. simpl. by rewrite labelAt_setModule, IH.
Qed.

Lemma replaceTargets_setModule m h w l wms found :
  replaceTargets (setModule m h w) l wms found = replaceTargets h l wms found.
Proof.
  revert found. induction wms as [|wm wms IH]; intros found; [done|]. simpl.
  rewrite firstLabelled_setModule.
  destruct (from_option Some found (firstLabelled h l (allWorkers wm))); [|done].
  by rewrite IH.
Qed.

Lemma replaceModuleFor_run iMod w wk σ :
  heap σ !! w = Some wk →
  ModuleHolder_replaceModuleFor iMod w σ
    = (Ok tt, {| heap := setModule (m_mod iMod) (heap σ) w;
                 log := log σ ++ [EvReplaceModuleFor w (m_mod iMod)];
                 collector := collector σ |}).
Proof.
  intros Hw. unfold ModuleHolder_replaceModuleFor, bind, deref, store, emit.
  rewrite Hw. simpl. rewrite Hw. simpl.
  by rewrite <- (insert_withModule _ _ _ _ Hw).
Qed.

Lemma replaceModule_loop_run this iMod l job wms found k σ :
  validSlots (heap σ) wms →
  (∀ w, found = Some w → is_Some (heap σ !! w)) →
  (0 ≤ k)%Z → (k + Z.of_nat (length wms) ≤ 2 ^ 32)%Z →
  let m := m_mod iMod in
  let gc := mk_GlobalContext kBeginJob (processContext_ this) in
  let ts := replaceTargets (heap σ) l wms found in
  ∃ r n,
    replaceModule_loop this iMod l job wms found k σ
      = (r, {| heap := foldl (setModule m) (heap σ) (take n ts);
               log := log σ ++ replaceEvents m gc job k (take n ts);
               collector := collector σ |}) ∧
    n ≤ length ts ∧
    ((r = Ok tt ∧ n = length ts ∧
      ((k ≤ job)%Z → (job < k + Z.of_nat (length ts))%Z → onBeginJob m = None)) ∨
     (∃ e, r = Throw e ∧ onBeginJob m = Some e ∧ (k ≤ job)%Z ∧
           Z.of_nat n = (job - k + 1)%Z)).
Proof.
  intros Hvalid Hfound Hk Hlen m gc. revert found k σ Hvalid Hfound Hk Hlen.
  induction wms as [|wm rest IH]; intros found k σ Hvalid Hfound Hk Hlen ts.
  { exists (Ok tt), 0. simpl. split_and!; [|done|left; split_and!; [done|done|lia]].
    destruct σ; simpl. by rewrite app_nil_r. }
  apply Forall_cons in Hvalid as [Hwm Hrest].
  simpl replaceModule_loop. fold gc. unfold bind at 1.
  rewrite (searchLabel_run _ _ _ _ Hwm).
  subst ts. simpl replaceTargets.
  destruct (from_option Some found (firstLabelled (heap σ) l (allWorkers wm)))
    as [w|] eqn:Hw.
  2:{ exists (Ok tt), 0. simpl. split_and!; [|done|left; split_and!; [done|done|lia]].
      destruct σ; simpl. by rewrite app_nil_r. }
  assert (Hlive : is_Some (heap σ !! w)).
  { destruct (firstLabelled (heap σ) l (allWorkers wm)) as [w'|] eqn:Hf; simpl in Hw.
    - simplify_eq. apply firstLabelled_Some in Hf as [Hin _].
      by eapply (proj1 (Forall_forall _ _) Hwm).
    - by apply Hfound. }
  destruct Hlive as [wk Hwk].
  unfold bind at 1. rewrite (replaceModuleFor_run _ _ _ _ Hwk). fold m.
  set (σ1 := {| heap := setModule m (heap σ) w; log := _; collector := _ |}).
  assert (Hσ1 : heap σ1 !! w = Some (withModule m wk)).
  { simpl. rewrite lookup_setModule, decide_True by done. by rewrite Hwk. }
  (* the rest of the loop, from the state [σ2] the begin-job left *)
  assert (Hcont : ∀ evs,
    let σ2 := logging evs σ1 in
    ∃ r n,
      replaceModule_loop this iMod l job rest (Some w) (wrap32 (k + 1)) σ2
        = (r, {| heap := foldl (setModule m) (heap σ)
                           (take (S n) (w :: replaceTargets (heap σ) l rest (Some w)));
                 log := log σ2
                        ++ replaceEvents m gc job (k + 1)
                             (take n (replaceTargets (heap σ) l rest (Some w)));
                 collector := collector σ |}) ∧
      n ≤ length (replaceTargets (heap σ) l rest (Some w)) ∧
      ((r = Ok tt ∧ n = length (replaceTargets (heap σ) l rest (Some w)) ∧
        ((k + 1 ≤ job)%Z →
         (job < k + 1 + Z.of_nat (length (replaceTargets (heap σ) l rest (Some w))))%Z →
         onBeginJob m = None)) ∨
       (∃ e, r = Throw e ∧ onBeginJob m = Some e ∧ (k + 1 ≤ job)%Z ∧
             Z.of_nat n = (job - (k + 1) + 1)%Z))).
  { intros evs σ2. destruct rest as [|wm' rest'].
    - exists (Ok tt), 0. simpl. split_and!; [|done|left; split_and!; [done|done|lia]].
      by rewrite app_nil_r.
    - assert (Hwrap : wrap32 (k + 1) = (k + 1)%Z).
      { unfold wrap32. apply Z.mod_small. simpl length in Hlen. lia. }
      rewrite Hwrap.
      destruct (IH (Some w) (k + 1)%Z σ2) as (r & n & Hrun & Hn & Hr).
      + simpl. by apply validSlots_setModule.
      + intros w' [= <-]. simpl. rewrite lookup_setModule, decide_True by done.
        rewrite Hwk. by eexists.
      + lia.
      + simpl length in *. lia.
      + simpl heap in Hrun, Hn, Hr. rewrite replaceTargets_setModule in Hrun, Hn, Hr.
        exists r, n. rewrite Hrun. split_and!; [done|done|done]. }
  unfold bind at 1.
  destruct (Z.eqb_spec k job) as [Hjob|Hjob].
  - rewrite Worker_beginJob_run, Hσ1. simpl module_. fold m.
    destruct (onBeginJob m) as [e|] eqn:Hbegin.
    + exists (Throw e), 1. simpl.
      rewrite (proj2 (Z.eqb_eq k job)) by done. simpl.
      split_and!; [unfold logging, σ1; simpl; by rewrite <- app_assoc|lia|].
      right. exists e.
      split_and!; [done|done|lia|lia].
    + destruct (Hcont [EvWorkerBeginJob w m gc]) as (r & n & Hrun & Hn & Hr).
      exists r, (S n). rewrite Hrun. split_and!.
      * simpl. rewrite (proj2 (Z.eqb_eq k job)) by done. simpl.
        by rewrite <- !app_assoc.
      * simpl. lia.
      * destruct Hr as [(-> & -> & _)|(e & -> & ? & ? & ?)]; [by left|].
        right. exists e. split_and!; [done|done|lia|lia].
  - destruct (Hcont []) as (r & n & Hrun & Hn & Hr).
    unfold ret at 1. rewrite logging_nil in Hrun.
    exists r, (S n). rewrite Hrun. split_and!.
    + simpl. rewrite (proj2 (Z.eqb_neq k job)) by done. simpl.
      by rewrite <- !app_assoc.
    + simpl. lia.
    + destruct Hr as [(-> & -> & Hnone)|(e & -> & ? & ? & ?)].
      * left. split_and!; [done|done|]. simpl length. intros ? ?. apply Hnone; lia.
      * right. exists e. split_and!; [done|done|lia|lia].
Qed.


Lemma replacedWorkers_replaceEvents m gc job k ts :
  replacedWorkers (replaceEvents m gc job k ts) = ts.
Proof.
  revert k. induction ts as [|w ts IH]; intros k; [done|].
  simpl. unfold replacedWorkers in *. rewrite omap_app, IH.
  by destruct (k =? job)%Z.
Qed.

Lemma begunWorkers_replaceEvents_past m gc job k ts :
  (job < k)%Z → begunWorkers (replaceEvents m gc job k ts) = [].
Proof.
  revert k. induction ts as [|w ts IH]; intros k Hk; [done|].
  simpl. unfold begunWorkers in *. rewrite omap_app, IH by lia.
  by rewrite (proj2 (Z.eqb_neq k job)) by lia.
Qed.

Lemma begunWorkers_replaceEvents m gc job k ts :
  (k ≤ job)%Z →
  begunWorkers (replaceEvents m gc job k ts) = option_list (ts !! Z.to_nat (job - k)).
Proof.
  revert k. induction ts as [|w ts IH]; intros k Hk; [done|].
  simpl. unfold begunWorkers in *. rewrite omap_app.
  destruct (Z.eqb_spec k job) as [->|Hne].
  - fold (begunWorkers (replaceEvents m gc job (job + 1) ts)).
    rewrite begunWorkers_replaceEvents_past by lia.
    by rewrite Z.sub_diag.
  - rewrite IH by lia. simpl.
    replace (Z.to_nat (job - k)) with (S (Z.to_nat (job - (k + 1)))) by lia.
    done.
Qed.

Lemma beginJob_event_replaceEvents m gc job k ts w :
  (k ≤ job)%Z → ts !! Z.to_nat (job - k) = Some w →
  EvWorkerBeginJob w m gc ∈ replaceEvents m gc job k ts.
Proof.
  revert k. induction ts as [|w' ts IH]; intros k Hk; [done|]. simpl.
  destruct (Z.eqb_spec k job) as [->|Hne].
  - rewrite Z.sub_diag. intros [= ->]. right. left.
  - replace (Z.to_nat (job - k)) with (S (Z.to_nat (job - (k + 1)))) by lia.
    intros Hw. right. simpl. apply IH; [lia|done].
Qed.

Lemma lookup_foldl_setModule m ts h i :
  foldl (setModule m) h ts !! i
    = if decide (i ∈ ts) then withModule m <$> h !! i else h !! i.
Proof.
  revert h. induction ts as [|w ts IH]; intros h.
  - destruct (decide (i ∈ [])) as [Hin|]; [|done]. by apply elem_of_nil in Hin.
  - simpl foldl. rewrite IH, lookup_setModule.
    destruct (decide (w = i)) as [->|Hne].
    + rewrite (decide_True (P := i ∈ i :: ts)) by left.
      destruct (decide (i ∈ ts)); [|done]. by destruct (h !! i).
    + destruct (decide (i ∈ ts)) as [Hin|Hnin].
      * by rewrite (decide_True (P := i ∈ w :: ts)) by (by right).
      * rewrite (decide_False (P := i ∈ w :: ts)); [done|].
        intros [->|?]%elem_of_cons; done.
Qed.

Lemma replaceTargets_owners h l wms owners found :
  Forall2 (fun wm w => firstLabelled h l (allWorkers wm) = Some w) wms owners →
  replaceTargets h l wms found = owners.
Proof.
  intros H. revert found. induction H as [|wm w wms owners Hw _ IH]; intros found; [done|].
  simpl. rewrite Hw. simpl. by rewrite IH.
Qed.

Lemma replaceTargets_carried_length h l wms w :
  length (replaceTargets h l wms (Some w)) = length wms.
Proof.
  revert w. induction wms as [|wm wms IH]; intros w; [done|]. simpl.
  destruct (firstLabelled h l (allWorkers wm)); simpl; by rewrite IH.
Qed.

Lemma replaceTargets_absent h l wms found i wm w :
  wms !! S i = Some wm → firstLabelled h l (allWorkers wm) = None →
  replaceTargets h l wms found !! i = Some w →
  replaceTargets h l wms found !! S i = Some w.
Proof.
  revert found i. induction wms as [|wm0 wms IH]; intros found i Hwm Hnone; [done|].
  simpl. destruct (from_option Some found (firstLabelled h l (allWorkers wm0)))
    as [w0|]; [|done].
  destruct i as [|i]; simpl.
  - intros [= ->]. destruct wms as [|wm1 wms]; [done|].
    simpl in Hwm. simplify_eq. simpl. by rewrite Hnone.
  - simpl in Hwm. by apply IH.
Qed.

Lemma replaceTargets_present h l wms found i wm w :
  wms !! i = Some wm → firstLabelled h l (allWorkers wm) = Some w →
  i < length (replaceTargets h l wms found) →
  replaceTargets h l wms found !! i = Some w.
Proof.
  revert found i. induction wms as [|wm0 wms IH]; intros found i Hwm Hsome; [done|].
  simpl. destruct (from_option Some found (firstLabelled h l (allWorkers wm0)))
    as [w0|] eqn:Hw0; [|simpl; lia].
  destruct i as [|i]; simpl.
  - simpl in Hwm. simplify_eq. rewrite Hsome in Hw0. simpl in Hw0. by simplify_eq.
  - intros Hi. simpl in Hwm. apply IH; [done|done|lia].
Qed.

Lemma jobSlotIndex_range this : (0 ≤ jobSlotIndex this < 2 ^ 32)%Z.
Proof. unfold jobSlotIndex, wrap32. by apply Z.mod_pos_bound. Qed.

(** C5: with every slot holding its own Worker for the label ([owners],
    slot by slot) and the job slot the last one, [replaceModule] swaps the
    implementation handle of each of these Workers for the new one, at the
    same address and with the descriptor untouched, and touches no other
    Worker; the one begin-job invocation of the call goes to the job
    slot's Worker, on the new implementation and with a fresh
    [GlobalContext(BeginJob)], and what that begin-job throws is what the
    call throws. *)
Theorem replaceModule_every_slot this iMod iLabel owners wjob σ :
  validSlots (heap σ) (workerManagers_ this) →
  Forall2 (fun wm w => firstLabelled (heap σ) iLabel (allWorkers wm) = Some w)
          (workerManagers_ this) owners →
  length (workerManagers_ this) = S (Z.to_nat (jobSlotIndex this)) →
  owners !! Z.to_nat (jobSlotIndex this) = Some wjob →
  let m := m_mod iMod in
  let gc := mk_GlobalContext kBeginJob (processContext_ this) in
  let σ' := snd (replaceModule this iMod iLabel σ) in
  let evs := newEvents σ σ' in
  fst (replaceModule this iMod iLabel σ) = from_option Throw (Ok tt) (onBeginJob m) ∧
  (∀ w, heap σ' !! w
        = if decide (w ∈ owners) then withModule m <$> heap σ !! w else heap σ !! w) ∧
  replacedWorkers evs = owners ∧
  begunWorkers evs = [wjob] ∧
  EvWorkerBeginJob wjob m gc ∈ evs ∧
  (∀ w, beginJobCalls w evs = if decide (w = wjob) then 1 else 0).
Proof.
  intros Hvalid Howners Hlen Hjob m gc.
  pose proof (jobSlotIndex_range this) as Hrange.
  pose proof (Forall2_length _ _ _ Howners) as Hlen'.
  destruct (replaceModule_loop_run this iMod iLabel (jobSlotIndex this)
              (workerManagers_ this) None 0 σ) as (r & n & Hrun & Hn & Hr);
    [done|done|lia|lia|].
  rewrite (replaceTargets_owners _ _ _ _ _ Howners) in Hrun, Hn, Hr.
  fold m gc in Hrun, Hr.
  assert (Hall : n = length owners) by (destruct Hr as [(_ & -> & _)|(e & _ & _ & _ & ?)]; lia).
  subst n. rewrite firstn_all in Hrun.
  unfold replaceModule. rewrite Hrun. simpl.
  assert (Hevs : newEvents σ
            {| heap := foldl (setModule m) (heap σ) owners;
               log := log σ ++ replaceEvents m gc (jobSlotIndex this) 0 owners;
               collector := collector σ |}
          = replaceEvents m gc (jobSlotIndex this) 0 owners).
  { unfold newEvents. simpl. by rewrite drop_app_length. }
  rewrite Hevs.
  assert (Hbegun : begunWorkers (replaceEvents m gc (jobSlotIndex this) 0 owners) = [wjob]).
  { rewrite begunWorkers_replaceEvents by lia. by rewrite Z.sub_0_r, Hjob. }
  split_and!.
  - destruct Hr as [(-> & _ & Hnone)|(e & -> & -> & _)]; [|done].
    rewrite Hnone; [done|lia|lia].
  - intros w. apply lookup_foldl_setModule.
  - apply replacedWorkers_replaceEvents.
  - done.
  - apply beginJob_event_replaceEvents; [lia|]. by rewrite Z.sub_0_r.
  - intros w. unfold beginJobCalls. rewrite Hbegun.
    destruct (decide (w = wjob)) as [->|Hne].
    + by rewrite filter_cons_True.
    + by rewrite filter_cons_False by done.
Qed.

(** C10: [replaceModule] carries the search result from slot to slot.
    With [ts] the Workers it takes slot by slot: the replacement is applied
    to them in order (to all of them when the call returns, up to the job
    slot when the begin-job there throws); the call returns without effect
    when the first slot has no Worker for the label, and only then is a
    slot left out: once the first slot has one, every slot has a target;
    and for a later slot that has no Worker for the label the target is
    the Worker taken for the slot before, while a slot that has one gets
    its own. *)
Theorem replaceModule_carries_found this iMod iLabel σ :
  validSlots (heap σ) (workerManagers_ this) →
  (Z.of_nat (length (workerManagers_ this)) ≤ 2 ^ 32)%Z →
  let wms := workerManagers_ this in
  let ts := replaceTargets (heap σ) iLabel wms None in
  let ran := replaceModule this iMod iLabel σ in
  (∃ n, replacedWorkers (newEvents σ (snd ran)) = take n ts ∧
        (fst ran = Ok tt ∧ n = length ts ∨
         ∃ e, fst ran = Throw e ∧ onBeginJob (m_mod iMod) = Some e ∧
              Z.of_nat n = (jobSlotIndex this + 1)%Z)) ∧
  (∀ wm, head wms = Some wm → firstLabelled (heap σ) iLabel (allWorkers wm) = None →
         ts = [] ∧ ran = (Ok tt, σ)) ∧
  (∀ wm w, head wms = Some wm → firstLabelled (heap σ) iLabel (allWorkers wm) = Some w →
           length ts = length wms) ∧
  (∀ i wm w, wms !! S i = Some wm →
             firstLabelled (heap σ) iLabel (allWorkers wm) = None →
             ts !! i = Some w → ts !! S i = Some w) ∧
  (∀ i wm w, wms !! i = Some wm →
             firstLabelled (heap σ) iLabel (allWorkers wm) = Some w →
             i < length ts → ts !! i = Some w).
Proof.
  intros Hvalid Hlen wms ts ran. split_and!.
  - destruct (replaceModule_loop_run this iMod iLabel (jobSlotIndex this)
                (workerManagers_ this) None 0 σ) as (r & n & Hrun & Hn & Hr);
      [done|done|lia|lia|].
    exists n. subst ran. unfold replaceModule. rewrite Hrun. simpl. split.
    + unfold newEvents. simpl. rewrite drop_app_length.
      apply replacedWorkers_replaceEvents.
    + destruct Hr as [(-> & -> & _)|(e & -> & ? & _ & ?)]; [by left|].
      right. exists e. split_and!; [done|done|lia].
  - intros wm Hhead Hnone. subst ts ran wms. unfold replaceModule.
    destruct (workerManagers_ this) as [|wm0 rest]; [done|].
    simpl in Hhead. simplify_eq. simpl. rewrite Hnone. split; [done|].
    apply Forall_cons in Hvalid as [Hwm _].
    unfold bind. by rewrite (searchLabel_run _ _ _ _ Hwm), Hnone.
  - intros wm w Hhead Hsome. subst ts wms.
    destruct (workerManagers_ this) as [|wm0 rest]; [done|].
    simpl in Hhead. simplify_eq. simpl. rewrite Hsome. simpl.
    by rewrite replaceTargets_carried_length.
  - intros i wm w. apply replaceTargets_absent.
  - intros i wm w. apply replaceTargets_present.
Qed.


(** ** Construction *)

Lemma hasWorker_slotLabels h wm l : hasWorker h wm l ↔ l ∈ slotLabels h wm.
Proof.
  unfold hasWorker, slotLabels. by rewrite list_elem_of_omap.
Qed.

Lemma labelAt_prefix h h' w :
  h `prefix_of` h' → is_Some (h !! w) → labelAt h' w = labelAt h w.
Proof.
  intros [k ->] [wk Hw]. unfold labelAt. by rewrite (lookup_app_l_Some _ _ _ _ Hw), Hw.
Qed.

Lemma validPtrs_prefix h h' ws : h `prefix_of` h' → validPtrs h ws → validPtrs h' ws.
Proof.
  intros [k ->] H. eapply Forall_impl; [exact H|]. intros w [wk Hw].
  exists wk. by apply lookup_app_l_Some.
Qed.

Lemma slotLabels_prefix h h' wm :
  h `prefix_of` h' → validPtrs h (allWorkers wm) → slotLabels h' wm = slotLabels h wm.
Proof.
  intros Hpre Hvalid. unfold slotLabels.
  apply list_omap_ext, Forall_Forall2_diag.
  eapply Forall_impl; [exact Hvalid|]. intros w Hw. by apply labelAt_prefix.
Qed.

Lemma add_label_elem l ls : l ∈ add_label l ls.
Proof.
  unfold add_label. destruct (decide (l ∈ ls)); [done|]. apply elem_of_app. right. left.
Qed.

Lemma add_label_mono l l' ls : l ∈ ls → l ∈ add_label l' ls.
Proof.
  unfold add_label. destruct (decide (l' ∈ ls)); [done|]. intros H. apply elem_of_app. by left.
Qed.

(** Searching the slot and, when the label is not bound, appending a new
    Worker for it. *)
Lemma search_or_new_requests l wk (wm : WorkerManager) σ wm' σ' :
  moduleLabel (description wk) = l →
  validPtrs (heap σ) (allWorkers wm) →
  (existing <- searchLabel l (allWorkers wm) None ;;
   match existing with
   | Some _ => ret wm
   | None => w <- alloc wk ;; ret {| allWorkers := allWorkers wm ++ [w] |}
   end) σ = (Ok wm', σ') →
  heap σ `prefix_of` heap σ' ∧
  validPtrs (heap σ') (allWorkers wm') ∧
  slotLabels (heap σ') wm' = add_label l (slotLabels (heap σ) wm).
Proof.
  intros Hl Hvalid. unfold bind at 1. rewrite (searchLabel_run _ _ _ _ Hvalid).
  destruct (firstLabelled (heap σ) l (allWorkers wm)) as [w|] eqn:Hfirst; simpl.
  - intros [= <- <-]. split_and!; [done|done|].
    apply firstLabelled_Some in Hfirst as [Hin Hw].
    unfold add_label. rewrite decide_True; [done|].
    apply hasWorker_slotLabels. by exists w.
  - unfold bind, alloc, ret. intros [= <- <-]. simpl.
    assert (Hpre : heap σ `prefix_of` heap σ ++ [wk]) by (by eexists).
    split_and!; [done| |].
    + apply Forall_app. split; [by eapply validPtrs_prefix|].
      repeat constructor. exists wk. by rewrite lookup_app_r, Nat.sub_diag.
    + unfold slotLabels at 1. simpl. rewrite omap_app.
      fold (slotLabels (heap σ ++ [wk]) wm).
      rewrite (slotLabels_prefix _ _ _ Hpre Hvalid). simpl.
      unfold labelAt at 1. rewrite lookup_app_r, Nat.sub_diag by done. simpl. rewrite Hl.
      unfold add_label. rewrite decide_False; [done|].
      rewrite <- hasWorker_slotLabels. intros (w & Hin & Hw).
      by apply (proj1 (firstLabelled_None _ _ _) Hfirst w).
Qed.

Lemma getWorker_requests modReg pset l :
  requests (fun wm => WorkerManager_getWorker modReg wm pset l) l.
Proof.
  intros wm σ wm' σ' Hvalid. unfold WorkerManager_getWorker.
  destruct (modReg l pset) as [e|m] eqn:Hmake.
  - unfold bind at 1. rewrite (searchLabel_run _ _ _ _ Hvalid).
    destruct (firstLabelled (heap σ) l (allWorkers wm)) as [w|] eqn:Hfirst; simpl; [|done].
    intros [= <- <-]. split_and!; [done|done|].
    apply firstLabelled_Some in Hfirst as [Hin Hw].
    unfold add_label. rewrite decide_True; [done|].
    apply hasWorker_slotLabels. by exists w.
  - by apply search_or_new_requests.
Qed.

Lemma getWorkerForModule_requests m :
  requests (fun wm => WorkerManager_getWorkerForModule wm m)
           (moduleLabel (moduleDescription m)).
Proof.
  intros wm σ wm' σ' Hvalid. unfold WorkerManager_getWorkerForModule.
  by apply search_or_new_requests.
Qed.

Lemma forEachManager_requests body l wms σ wms' σ' :
  requests body l →
  validSlots (heap σ) wms →
  forEachManager body wms σ = (Ok wms', σ') →
  heap σ `prefix_of` heap σ' ∧
  validSlots (heap σ') wms' ∧
  Forall2 (fun wm wm' => slotLabels (heap σ') wm' = add_label l (slotLabels (heap σ) wm))
          wms wms'.
Proof.
  intros Hbody. revert σ wms' σ'.
  induction wms as [|wm wms IH]; intros σ wms' σ' Hvalid; simpl.
  - intros [= <- <-]. split_and!; [done|done|constructor].
  - apply Forall_cons in Hvalid as [Hwm Hwms].
    unfold bind at 1. destruct (body wm σ) as [[wm1| |] σ1] eqn:Hstep; [|done|done].
    destruct (Hbody wm σ wm1 σ1 Hwm Hstep) as (Hpre1 & Hvalid1 & Hlabels1).
    unfold bind at 1.
    destruct (forEachManager body wms σ1) as [[wms1| |] σ2] eqn:Hrest; [|done|done].
    intros [= <- <-].
    destruct (IH σ1 wms1 σ2) as (Hpre2 & Hvalid2 & Hlabels2); [|done|].
    { eapply Forall_impl; [exact Hwms|]. intros wm0. by apply validPtrs_prefix. }
    split_and!.
    + by etrans.
    + constructor; [by eapply validPtrs_prefix|done].
    + constructor.
      * by rewrite (slotLabels_prefix _ _ _ Hpre2 Hvalid1).
      * clear -Hlabels2 Hwms Hpre1. induction Hlabels2 as [|wm0 wm0' ? ? Heq _ IH'];
          [constructor|].
        apply Forall_cons in Hwms as [Hwm0 Hwms]. constructor; [|by apply IH'].
        by rewrite Heq, (slotLabels_prefix _ _ _ Hpre1 Hwm0).
Qed.


Lemma requested_mono {A} (key : A → option string) l ls xs :
  l ∈ ls → l ∈ requested key ls xs.
Proof.
  revert ls. induction xs as [|x xs IH]; intros ls Hl; [done|].
  simpl. apply IH. destruct (key x); simpl; [by apply add_label_mono|done].
Qed.

Lemma requested_elem {A} (key : A → option string) l ls xs x :
  x ∈ xs → key x = Some l → l ∈ requested key ls xs.
Proof.
  revert ls. induction xs as [|x' xs IH]; intros ls Hx Hkey.
  - by apply elem_of_nil in Hx.
  - simpl. apply elem_of_cons in Hx as [->|Hx].
    + apply requested_mono. rewrite Hkey. simpl. apply add_label_elem.
    + by apply IH.
Qed.

Lemma forEachManager_populated body l n ls wms σ wms' σ' :
  requests body l →
  populated n ls wms σ →
  forEachManager body wms σ = (Ok wms', σ') →
  populated n (add_label l ls) wms' σ'.
Proof.
  intros Hbody (Hn & Hvalid & Hls) Hrun.
  destruct (forEachManager_requests body l wms σ wms' σ' Hbody Hvalid Hrun)
    as (_ & Hvalid' & Hlabels).
  split_and!; [|done|].
  - by rewrite <- (Forall2_length _ _ _ Hlabels).
  - clear -Hls Hlabels. induction Hlabels as [|wm wm' ? ? Heq _ IH]; [constructor|].
    apply Forall_cons in Hls as [Hwm Hls]. constructor; [|by apply IH].
    by rewrite Heq, Hwm.
Qed.

Lemma forEach_populated {A} (body : list WorkerManager → A → M (list WorkerManager))
    (key : A → option string) n xs ls wms σ wms' σ' :
  (∀ x ls wms σ wms' σ',
     populated n ls wms σ → body wms x σ = (Ok wms', σ') →
     populated n (from_option (fun l => add_label l ls) ls (key x)) wms' σ') →
  populated n ls wms σ →
  forEach body xs wms σ = (Ok wms', σ') →
  populated n (requested key ls xs) wms' σ'.
Proof.
  intros Hbody. revert ls wms σ.
  induction xs as [|x xs IH]; intros ls wms σ Hpop; simpl.
  - by intros [= <- <-].
  - unfold bind at 1. destruct (body wms x σ) as [[wms1| |] σ1] eqn:Hstep; [|done|done].
    intros Hrun. eapply IH; [|exact Hrun]. by eapply Hbody.
Qed.

Lemma populated_symmetric n ls wms σ : populated n ls wms σ → symmetric (heap σ) wms.
Proof.
  intros (_ & _ & Hls) l wm1 wm2 H1 H2. rewrite !hasWorker_slotLabels.
  by rewrite (proj1 (Forall_forall _ _) Hls wm1 H1), (proj1 (Forall_forall _ _) Hls wm2 H2).
Qed.

Lemma GlobalSchedule_new_populated inserter pathStatusInserters endPathStatusInserters
    modReg iModulesToUse proc_pset prealloc areg pc σ this σ' :
  GlobalSchedule_new inserter pathStatusInserters endPathStatusInserters modReg
    iModulesToUse proc_pset prealloc areg pc σ = (Ok this, σ') →
  let label (m : Module) := Some (moduleLabel (moduleDescription m)) in
  populated
    (Z.to_nat (wrap32 (wrap32 (wrap32 (numberOfLuminosityBlocks prealloc
                                        + numberOfRuns prealloc)
                               + numberOfConcurrentProcessBlocks_)
                       + numberOfConcurrentJobs_)))
    (requested label
       (requested label
          (requested label
             (requested (fun l => proc_pset l ≫= fun _ => Some l) [] iModulesToUse)
             (option_list inserter))
          pathStatusInserters)
       endPathStatusInserters)
    (workerManagers_ this) σ' ∧
  numberOfConcurrentLumis_ this = numberOfLuminosityBlocks prealloc ∧
  numberOfConcurrentRuns_ this = numberOfRuns prealloc.
Proof.
  intros Hnew label. unfold GlobalSchedule_new in Hnew.
  set (n := Z.to_nat _) in *.
  assert (Hinserters : ∀ x ls wms σ wms' σ',
     populated n ls wms σ →
     forEachManager (fun wm => WorkerManager_getWorkerForModule wm x) wms σ = (Ok wms', σ') →
     populated n (from_option (fun l => add_label l ls) ls (label x)) wms' σ').
  { intros x ls wms σ0 wms' σ0' Hpop Hrun. simpl.
    eapply forEachManager_populated; [apply getWorkerForModule_requests|done|done]. }
  apply bind_Ok in Hnew as (wms1 & σ1 & H1 & Hnew).
  apply bind_Ok in Hnew as (wms2 & σ2 & H2 & Hnew).
  apply bind_Ok in Hnew as (wms3 & σ3 & H3 & Hnew).
  apply bind_Ok in Hnew as (wms4 & σ4 & H4 & Hnew).
  unfold ret in Hnew. simplify_eq. simpl. split; [|done].
  refine (forEach_populated _ label n _ _ _ _ _ _ _ _ H4).
  { intros x ls wms σ0 wms' σ0'. apply Hinserters. }
  refine (forEach_populated _ label n _ _ _ _ _ _ _ _ H3).
  { intros x ls wms σ0 wms' σ0'. apply Hinserters. }
  assert (Hlabels : populated n
            (requested (fun l => proc_pset l ≫= fun _ => Some l) [] iModulesToUse) wms1 σ1).
  { refine (forEach_populated _ (fun l => proc_pset l ≫= fun _ => Some l)
              n _ _ _ _ _ _ _ _ H1).
    - intros l ls wms σ0 wms' σ0' Hpop.
      destruct (proc_pset l) as [modpset|]; simpl.
      + unfold bind at 1. destruct (isTracked modpset); [|done]. unfold ret at 1.
        intros Hrun.
        eapply forEachManager_populated; [apply getWorker_requests|done|done].
      + by intros [= <- <-].
    - split_and!.
      + by rewrite length_replicate.
      + apply Forall_forall. intros wm Hwm. apply elem_of_replicate in Hwm as [-> _].
        constructor.
      + apply Forall_forall. intros wm Hwm. by apply elem_of_replicate in Hwm as [-> _]. }
  destruct inserter as [m|]; simpl.
  - by eapply Hinserters.
  - unfold ret in H2. by simplify_eq.
Qed.


Lemma search_or_new_returns l wk (wm : WorkerManager) σ :
  validPtrs (heap σ) (allWorkers wm) →
  ∃ wm' σ',
    (existing <- searchLabel l (allWorkers wm) None ;;
     match existing with
     | Some _ => ret wm
     | None => w <- alloc wk ;; ret {| allWorkers := allWorkers wm ++ [w] |}
     end) σ = (Ok wm', σ').
Proof.
  intros Hvalid. unfold bind at 1. rewrite (searchLabel_run _ _ _ _ Hvalid).
  destruct (firstLabelled (heap σ) l (allWorkers wm)); simpl; by eexists _, _.
Qed.

Lemma forEachManager_returns body l wms σ :
  requests body l →
  (∀ wm σ, validPtrs (heap σ) (allWorkers wm) → ∃ wm' σ', body wm σ = (Ok wm', σ')) →
  validSlots (heap σ) wms →
  ∃ wms' σ', forEachManager body wms σ = (Ok wms', σ').
Proof.
  intros Hbody Hreturns. revert σ.
  induction wms as [|wm wms IH]; intros σ Hvalid; simpl; [by eexists _, _|].
  apply Forall_cons in Hvalid as [Hwm Hwms].
  destruct (Hreturns wm σ Hwm) as (wm1 & σ1 & Hstep).
  destruct (Hbody wm σ wm1 σ1 Hwm Hstep) as (Hpre & _ & _).
  destruct (IH σ1) as (wms1 & σ2 & Hrest).
  { eapply Forall_impl; [exact Hwms|]. intros wm0. by apply validPtrs_prefix. }
  exists (wm1 :: wms1), σ2. unfold bind at 1. rewrite Hstep.
  unfold bind at 1. by rewrite Hrest.
Qed.

Lemma forEach_returns {A} (body : list WorkerManager → A → M (list WorkerManager))
    (key : A → option string) (P : A → Prop) n xs ls wms σ :
  (∀ x ls wms σ,
     P x → populated n ls wms σ →
     ∃ wms' σ', body wms x σ = (Ok wms', σ') ∧
       populated n (from_option (fun l => add_label l ls) ls (key x)) wms' σ') →
  Forall P xs →
  populated n ls wms σ →
  ∃ wms' σ', forEach body xs wms σ = (Ok wms', σ') ∧
    populated n (requested key ls xs) wms' σ'.
Proof.
  intros Hbody HP. revert ls wms σ.
  induction HP as [|x xs Hx _ IH]; intros ls wms σ Hpop; simpl; [by eexists _, _|].
  destruct (Hbody x ls wms σ Hx Hpop) as (wms1 & σ1 & Hstep & Hpop1).
  destruct (IH _ wms1 σ1 Hpop1) as (wms2 & σ2 & Hrest & Hpop2).
  exists wms2, σ2. unfold bind at 1. by rewrite Hstep.
Qed.

(** Construction returns when every block it finds is tracked and the
    registry builds a module for it. *)
Lemma GlobalSchedule_new_returns inserter pathStatusInserters endPathStatusInserters
    modReg iModulesToUse proc_pset prealloc areg pc σ :
  Forall (fun l => ∀ pset, proc_pset l = Some pset →
                     isTracked pset = true ∧ ∃ m, modReg l pset = inr m)
         iModulesToUse →
  ∃ this σ',
    GlobalSchedule_new inserter pathStatusInserters endPathStatusInserters modReg
      iModulesToUse proc_pset prealloc areg pc σ = (Ok this, σ').
Proof.
  intros Hblocks. unfold GlobalSchedule_new.
  set (n := Z.to_nat _).
  set (label := fun m : Module => Some (moduleLabel (moduleDescription m))).
  assert (Hinserter : ∀ x ls wms σ,
     True → populated n ls wms σ →
     ∃ wms' σ',
       forEachManager (fun wm => WorkerManager_getWorkerForModule wm x) wms σ = (Ok wms', σ') ∧
       populated n (from_option (fun l => add_label l ls) ls (label x)) wms' σ').
  { intros x ls wms σ0 _ Hpop.
    destruct (forEachManager_returns
                (fun wm => WorkerManager_getWorkerForModule wm x)
                (moduleLabel (moduleDescription x)) wms σ0) as (wms' & σ0' & Hrun).
    - apply getWorkerForModule_requests.
    - intros wm σ1 Hwm. by apply search_or_new_returns.
    - apply Hpop.
    - exists wms', σ0'. split; [done|].
      eapply forEachManager_populated; [apply getWorkerForModule_requests|done|done]. }
  destruct (forEach_returns
    (fun workerManagers moduleLabel =>
       match proc_pset moduleLabel with
       | Some modpset =>
           (if isTracked modpset then ret tt else fault) ;;;
           forEachManager
             (fun wm => WorkerManager_getWorker modReg wm modpset moduleLabel)
             workerManagers
       | None => ret workerManagers
       end)
    (fun l => proc_pset l ≫= fun _ => Some l)
    (fun l => ∀ pset, proc_pset l = Some pset →
                isTracked pset = true ∧ ∃ m, modReg l pset = inr m)
    n iModulesToUse [] (replicate n {| allWorkers := [] |}) σ)
    as (wms1 & σ1 & H1 & Hpop1).
  { intros l ls wms σ0 Hl Hpop.
    destruct (proc_pset l) as [modpset|] eqn:Hpset; simpl; [|by eexists _, _].
    destruct (Hl modpset eq_refl) as (Htracked & m & Hmake).
    unfold bind at 1. rewrite Htracked. unfold ret at 1.
    destruct (forEachManager_returns
                (fun wm => WorkerManager_getWorker modReg wm modpset l) l wms σ0)
      as (wms' & σ0' & Hrun).
    - apply getWorker_requests.
    - intros wm σ2 Hwm. unfold WorkerManager_getWorker. rewrite Hmake.
      by apply search_or_new_returns.
    - apply Hpop.
    - exists wms', σ0'. split; [done|].
      eapply forEachManager_populated; [apply getWorker_requests|done|done]. }
  { done. }
  { split_and!.
    - by rewrite length_replicate.
    - apply Forall_forall. intros wm Hwm. apply elem_of_replicate in Hwm as [-> _].
      constructor.
    - apply Forall_forall. intros wm Hwm. by apply elem_of_replicate in Hwm as [-> _]. }
  assert (H2 : ∃ wms2 σ2,
    match inserter with
    | Some m => forEachManager (fun wm => WorkerManager_getWorkerForModule wm m) wms1
    | None => ret wms1
    end σ1 = (Ok wms2, σ2) ∧
    populated n (requested label
                   (requested (fun l => proc_pset l ≫= fun _ => Some l) [] iModulesToUse)
                   (option_list inserter)) wms2 σ2).
  { destruct inserter as [m|]; simpl; [by apply Hinserter|by eexists _, _]. }
  destruct H2 as (wms2 & σ2 & H2 & Hpop2).
  destruct (forEach_returns
    (fun workerManagers pathStatusInserter =>
       forEachManager (fun wm => WorkerManager_getWorkerForModule wm pathStatusInserter)
                      workerManagers)
    label (fun _ => True) n pathStatusInserters _ wms2 σ2 Hinserter
    (Forall_true _ _ (fun _ => I)) Hpop2)
    as (wms3 & σ3 & H3 & Hpop3).
  destruct (forEach_returns
    (fun workerManagers endPathStatusInserter =>
       forEachManager (fun wm => WorkerManager_getWorkerForModule wm endPathStatusInserter)
                      workerManagers)
    label (fun _ => True) n endPathStatusInserters _ wms3 σ3 Hinserter
    (Forall_true _ _ (fun _ => I)) Hpop3)
    as (wms4 & σ4 & H4 & Hpop4).
  eexists _, σ4. unfold bind at 1. fold n. rewrite H1.
  unfold bind at 1. rewrite H2. unfold bind at 1. rewrite H3.
  unfold bind at 1. rewrite H4. reflexivity.
Qed.

(** C1: after a construction that returns, with slot counts that do not
    overflow an [unsigned int], there are exactly [L + R + P + 1] slots,
    the job slot being the last; every slot holds a live Worker for each
    label of [iModulesToUse] that has a configuration block and for each
    inserter module; and the symmetry invariant holds: a label bound in
    one slot is bound in every slot. *)
Theorem construction_symmetry inserter pathStatusInserters endPathStatusInserters
    modReg iModulesToUse proc_pset prealloc areg pc σ this σ' :
  (0 ≤ numberOfLuminosityBlocks prealloc)%Z →
  (0 ≤ numberOfRuns prealloc)%Z →
  (0 ≤ numberOfConcurrentProcessBlocks_)%Z →
  (numberOfLuminosityBlocks prealloc + numberOfRuns prealloc
   + numberOfConcurrentProcessBlocks_ + 1 < 2 ^ 32)%Z →
  GlobalSchedule_new inserter pathStatusInserters endPathStatusInserters modReg
    iModulesToUse proc_pset prealloc areg pc σ = (Ok this, σ') →
  length (workerManagers_ this)
    = Z.to_nat (numberOfLuminosityBlocks prealloc + numberOfRuns prealloc
                + numberOfConcurrentProcessBlocks_ + 1) ∧
  jobSlotIndex this
    = (numberOfLuminosityBlocks prealloc + numberOfRuns prealloc
       + numberOfConcurrentProcessBlocks_)%Z ∧
  validSlots (heap σ') (workerManagers_ this) ∧
  (∀ wm, wm ∈ workerManagers_ this →
     (∀ l, l ∈ iModulesToUse → is_Some (proc_pset l) → hasWorker (heap σ') wm l) ∧
     (∀ m, m ∈ option_list inserter ++ pathStatusInserters ++ endPathStatusInserters →
           hasWorker (heap σ') wm (moduleLabel (moduleDescription m)))) ∧
  symmetric (heap σ') (workerManagers_ this).
Proof.
  intros HL HR HP Hsum Hnew.
  destruct (GlobalSchedule_new_populated _ _ _ _ _ _ _ _ _ _ _ _ Hnew)
    as (Hpop & HLumis & HRuns).
  assert (Hwrap : ∀ z, (0 ≤ z < 2 ^ 32)%Z → wrap32 z = z).
  { intros z Hz. unfold wrap32. by apply Z.mod_small. }
  unfold numberOfConcurrentJobs_ in Hpop.
  rewrite (Hwrap (_ + numberOfRuns prealloc)%Z) in Hpop by lia.
  rewrite (Hwrap (_ + numberOfConcurrentProcessBlocks_)%Z) in Hpop by lia.
  rewrite (Hwrap (_ + 1)%Z) in Hpop by lia.
  pose proof Hpop as (Hlen & Hvalid & Hls).
  split_and!.
  - done.
  - unfold jobSlotIndex. rewrite HLumis, HRuns.
    rewrite (Hwrap (_ + numberOfRuns prealloc)%Z) by lia.
    by rewrite (Hwrap (_ + numberOfConcurrentProcessBlocks_)%Z) by lia.
  - done.
  - intros wm Hwm. rewrite (Forall_forall _ _) in Hls. split.
    + intros l Hl [pset Hpset]. rewrite hasWorker_slotLabels, (Hls wm Hwm).
      do 3 apply requested_mono. eapply requested_elem; [exact Hl|]. by rewrite Hpset.
    + intros m Hm. rewrite hasWorker_slotLabels, (Hls wm Hwm).
      apply elem_of_app in Hm as [Hm|Hm]; [|apply elem_of_app in Hm as [Hm|Hm]].
      * do 2 apply requested_mono. by eapply requested_elem.
      * apply requested_mono. by eapply requested_elem.
      * by eapply requested_elem.
  - by eapply populated_symmetric.
Qed.

(** ** Construction: further properties *)

Lemma wrap32_range z : (0 ≤ wrap32 z < 2 ^ 32)%Z.
Proof. unfold wrap32. by apply Z.mod_pos_bound. Qed.

(** X1: the job slot of a constructed schedule.  Whatever the counts, also
    when their unsigned sum wraps around, the number of slots is the job
    slot's index plus one, wrapped: either the index is [2^32 - 1] and there
    is no slot at all, or the job slot exists and is the last slot. *)
Theorem construction_job_slot_last_or_none inserter pathStatusInserters
    endPathStatusInserters modReg iModulesToUse proc_pset prealloc areg pc σ this σ' :
  GlobalSchedule_new inserter pathStatusInserters endPathStatusInserters modReg
    iModulesToUse proc_pset prealloc areg pc σ = (Ok this, σ') →
  length (workerManagers_ this) = Z.to_nat (wrap32 (jobSlotIndex this + 1)) ∧
  (jobSlotIndex this = (2 ^ 32 - 1)%Z → workerManagers_ this = []) ∧
  (jobSlotIndex this ≠ (2 ^ 32 - 1)%Z →
     length (workerManagers_ this) = S (Z.to_nat (jobSlotIndex this)) ∧
     ∃ wm, workerManagers_ this !! Z.to_nat (jobSlotIndex this) = Some wm ∧
           last (workerManagers_ this) = Some wm).
Proof.
  intros Hnew.
  destruct (GlobalSchedule_new_populated _ _ _ _ _ _ _ _ _ _ _ _ Hnew)
    as ((Hlen & _ & _) & HLumis & HRuns).
  pose proof (jobSlotIndex_range this) as Hrange.
  assert (Hcount : length (workerManagers_ this)
                   = Z.to_nat (wrap32 (jobSlotIndex this + 1))).
  { rewrite Hlen. unfold jobSlotIndex, numberOfConcurrentJobs_. by rewrite HLumis, HRuns. }
  split_and!; [done| |].
  - intros Hjob. apply length_zero_iff_nil. rewrite Hcount, Hjob. by vm_compute.
  - intros Hjob.
    assert (Hlast : length (workerManagers_ this) = S (Z.to_nat (jobSlotIndex this))).
    { rewrite Hcount. unfold wrap32. rewrite Z.mod_small by lia. lia. }
    split; [done|].
    destruct (lookup_lt_is_Some_2 (workerManagers_ this) (Z.to_nat (jobSlotIndex this)))
      as [wm Hwm]; [lia|].
    exists wm. split; [done|]. rewrite last_lookup, Hlast. done.
Qed.

Lemma labels_loop_tracked modReg (proc_pset : ParameterSet) xs wms σ wms' σ' :
  forEach
    (fun workerManagers moduleLabel =>
       match proc_pset moduleLabel with
       | Some modpset =>
           (if isTracked modpset then ret tt else fault) ;;;
           forEachManager
             (fun wm => WorkerManager_getWorker modReg wm modpset moduleLabel)
             workerManagers
       | None => ret workerManagers
       end) xs wms σ = (Ok wms', σ') →
  ∀ l pset, l ∈ xs → proc_pset l = Some pset → isTracked pset = true.
Proof.
  revert wms σ. induction xs as [|x xs IH]; intros wms σ Hrun l pset Hl Hpset.
  - by apply elem_of_nil in Hl.
  - simpl in Hrun. apply bind_Ok in Hrun as (wms1 & σ1 & Hstep & Hrest).
    apply elem_of_cons in Hl as [->|Hl]; [|by eapply IH].
    rewrite Hpset in Hstep. apply bind_Ok in Hstep as ([] & σ0 & Htracked & _).
    by destruct (isTracked pset).
Qed.

(** X2: a configuration block that is not tracked stops the construction:
    with such a block for any label of [iModulesToUse], no schedule is
    returned. *)
Theorem construction_untracked_block_aborts inserter pathStatusInserters
    endPathStatusInserters modReg iModulesToUse proc_pset prealloc areg pc σ l pset :
  l ∈ iModulesToUse →
  proc_pset l = Some pset →
  isTracked pset = false →
  ∀ this, fst (GlobalSchedule_new inserter pathStatusInserters endPathStatusInserters
                 modReg iModulesToUse proc_pset prealloc areg pc σ) ≠ Ok this.
Proof.
  intros Hl Hpset Huntracked this Hok.
  destruct (GlobalSchedule_new _ _ _ _ _ _ _ _ _ σ) as [r σ'] eqn:Hnew.
  simpl in Hok. subst r. unfold GlobalSchedule_new in Hnew.
  apply bind_Ok in Hnew as (wms1 & σ1 & H1 & _).
  pose proof (labels_loop_tracked _ _ _ _ _ _ _ H1 l pset Hl Hpset). congruence.
Qed.

Lemma getWorker_builds modReg pset l n ls wms σ wms' σ' :
  populated n ls wms σ → 0 < n → l ∉ ls →
  forEachManager (fun wm => WorkerManager_getWorker modReg wm pset l) wms σ = (Ok wms', σ') →
  ∃ m, modReg l pset = inr m.
Proof.
  intros (Hn & Hvalid & Hls) Hpos Hnew Hrun.
  destruct wms as [|wm rest]; [simpl in Hn; lia|].
  apply Forall_cons in Hvalid as [Hwm _]. apply Forall_cons in Hls as [Hlabels _].
  simpl in Hrun. apply bind_Ok in Hrun as (wm1 & σ1 & Hstep & _).
  unfold WorkerManager_getWorker in Hstep.
  destruct (modReg l pset) as [e|m]; [|by exists m].
  unfold bind in Hstep. rewrite (searchLabel_run _ _ _ _ Hwm) in Hstep.
  rewrite (proj2 (firstLabelled_None _ _ _)) in Hstep; [done|].
  intros w Hw Hl. apply Hnew. rewrite <- Hlabels. apply hasWorker_slotLabels. by exists w.
Qed.

Lemma labels_loop_usable modReg (proc_pset : ParameterSet) n xs ls wms σ wms' σ' :
  forEach
    (fun workerManagers moduleLabel =>
       match proc_pset moduleLabel with
       | Some modpset =>
           (if isTracked modpset then ret tt else fault) ;;;
           forEachManager
             (fun wm => WorkerManager_getWorker modReg wm modpset moduleLabel)
             workerManagers
       | None => ret workerManagers
       end) xs wms σ = (Ok wms', σ') →
  populated n ls wms σ → 0 < n →
  Forall (usable modReg proc_pset) ls →
  Forall (usable modReg proc_pset) xs.
Proof.
  revert ls wms σ. induction xs as [|x xs IH]; intros ls wms σ Hrun Hpop Hpos Hls;
    [constructor|].
  pose proof (labels_loop_tracked _ _ _ _ _ _ _ Hrun x) as Htracked.
  simpl in Hrun. apply bind_Ok in Hrun as (wms1 & σ1 & Hstep & Hrest).
  destruct (proc_pset x) as [pset|] eqn:Hpset.
  - apply bind_Ok in Hstep as ([] & σ0 & Hassert & Hstep).
    rewrite (Htracked pset) in Hassert by (done || left). unfold ret in Hassert.
    simplify_eq.
    assert (Hx : usable modReg proc_pset x).
    { destruct (decide (x ∈ ls)) as [Hin|Hnin].
      - by apply (proj1 (Forall_forall _ _) Hls).
      - intros pset' Hpset'. rewrite Hpset in Hpset'. simplify_eq.
        split; [apply Htracked; [left|done]|]. by eapply getWorker_builds. }
    constructor; [done|].
    eapply (IH (add_label x ls)); [exact Hrest| |done|].
    + eapply forEachManager_populated; [apply getWorker_requests|done|done].
    + unfold add_label. destruct (decide (x ∈ ls)); [done|].
      apply Forall_app. split; [done|]. constructor; [done|constructor].
  - unfold ret in Hstep. simplify_eq. constructor; [|by eapply IH].
    intros pset Hpset'. congruence.
Qed.

(** X3: when at least one slot is allocated, the construction returns a
    schedule exactly when every label of [iModulesToUse] that has a
    configuration block has a tracked one from which the registry builds a
    module; an untracked block or a failure of the registry for any such
    label leaves no schedule. *)
Theorem construction_returns_iff inserter pathStatusInserters endPathStatusInserters
    modReg iModulesToUse proc_pset prealloc areg pc σ :
  (0 < wrap32 (wrap32 (wrap32 (numberOfLuminosityBlocks prealloc + numberOfRuns prealloc)
                       + numberOfConcurrentProcessBlocks_)
               + numberOfConcurrentJobs_))%Z →
  (∃ this σ',
     GlobalSchedule_new inserter pathStatusInserters endPathStatusInserters modReg
       iModulesToUse proc_pset prealloc areg pc σ = (Ok this, σ')) ↔
  Forall (usable modReg proc_pset) iModulesToUse.
Proof.
  intros Hslots. split.
  - intros (this & σ' & Hnew). unfold GlobalSchedule_new in Hnew.
    apply bind_Ok in Hnew as (wms1 & σ1 & H1 & _).
    eapply (labels_loop_usable _ _ _ _ []); [exact H1| | |constructor].
    + split_and!.
      * by rewrite length_replicate.
      * apply Forall_forall. intros wm Hwm. apply elem_of_replicate in Hwm as [-> _].
        constructor.
      * apply Forall_forall. intros wm Hwm. by apply elem_of_replicate in Hwm as [-> _].
    + lia.
  - intros Husable. by apply GlobalSchedule_new_returns.
Qed.

Lemma requested_inv {A} (key : A → option string) l ls xs :
  l ∈ requested key ls xs → l ∈ ls ∨ ∃ x, x ∈ xs ∧ key x = Some l.
Proof.
  revert ls. induction xs as [|x xs IH]; intros ls; simpl; [by left|].
  intros Hl. apply IH in Hl as [Hl|(x' & Hx' & Hkey)].
  - destruct (key x) as [lx|] eqn:Hkey; simpl in Hl; [|by left].
    unfold add_label in Hl. destruct (decide (lx ∈ ls)); [by left|].
    apply elem_of_app in Hl as [Hl|Hl]; [by left|].
    apply list_elem_of_singleton in Hl as ->. right. exists x. split; [left|done].
  - right. exists x'. split; [by right|done].
Qed.

(** X4: a constructed schedule binds nothing that was not asked for: a slot
    holds a Worker for a label only if the label is in [iModulesToUse] with
    a configuration block, or is the label of one of the inserters.  A label
    of [iModulesToUse] without a block is skipped. *)
Theorem construction_binds_only_requested inserter pathStatusInserters
    endPathStatusInserters modReg iModulesToUse proc_pset prealloc areg pc σ this σ' :
  GlobalSchedule_new inserter pathStatusInserters endPathStatusInserters modReg
    iModulesToUse proc_pset prealloc areg pc σ = (Ok this, σ') →
  ∀ wm l, wm ∈ workerManagers_ this → hasWorker (heap σ') wm l →
    (l ∈ iModulesToUse ∧ is_Some (proc_pset l)) ∨
    (∃ m, m ∈ option_list inserter ++ pathStatusInserters ++ endPathStatusInserters ∧
          moduleLabel (moduleDescription m) = l).
Proof.
  intros Hnew wm l Hwm Hhas.
  destruct (GlobalSchedule_new_populated _ _ _ _ _ _ _ _ _ _ _ _ Hnew)
    as ((_ & _ & Hls) & _ & _).
  apply hasWorker_slotLabels in Hhas.
  rewrite (proj1 (Forall_forall _ _) Hls wm Hwm) in Hhas.
  apply requested_inv in Hhas as [Hhas|(m & Hm & [= Hkey])].
  2:{ right. exists m. split; [|done]. rewrite !elem_of_app. by right; right. }
  apply requested_inv in Hhas as [Hhas|(m & Hm & [= Hkey])].
  2:{ right. exists m. split; [|done]. rewrite !elem_of_app. by right; left. }
  apply requested_inv in Hhas as [Hhas|(m & Hm & [= Hkey])].
  2:{ right. exists m. split; [|done]. rewrite !elem_of_app. by left. }
  apply requested_inv in Hhas as [Hhas|(x & Hx & Hkey)].
  { by apply elem_of_nil in Hhas. }
  left. destruct (proc_pset x) as [pset|] eqn:Hpset; simpl in Hkey; [|done].
  simplify_eq. split; [done|]. rewrite Hpset. by eexists.
Qed.














(** ** handleException: further properties *)

(** X7: what [handleException] does besides leaving the exception in the
    slot: it reports that very exception once, under the service token, and
    only then broadcasts the early termination, with the origin
    [ExceptionFromThisContext]; without an activity registry there is no
    broadcast; Workers and collector are not touched. *)
Theorem handleException_reports_then_broadcasts this gc token cleaning e σ :
  ∃ ex σ',
    handleException this (Some gc) token cleaning (Some e) σ = (Ok (Some (Cms ex)), σ') ∧
    newEvents σ σ' =
      [EvOperate token; EvPrintException ex cleaning]
      ++ match actReg_ this with
         | Some _ => [EvOperate token; EvPreGlobalEarlyTermination gc ExceptionFromThisContext]
         | None => []
         end ∧
    heap σ' = heap σ ∧
    collector σ' = collector σ.
Proof.
  eexists _, _. split; [apply handleException_run|].
  by rewrite newEvents_logging.
Qed.

(** X8: a null [globalContext] is dereferenced only where it is needed: the
    call leaves defined behaviour exactly when the exception has no context
    yet or an activity registry is present, and otherwise returns with the
    slot holding the exception unchanged. *)
Theorem handleException_null_context this token cleaning e σ :
  (fst (handleException this None token cleaning (Some e) σ) = Fault ↔
   context (toCms e) = [] ∨ is_Some (actReg_ this)) ∧
  (context (toCms e) ≠ [] → actReg_ this = None →
   fst (handleException this None token cleaning (Some e) σ) = Ok (Some (Cms (toCms e)))).
Proof.
  assert (Hcms : ∀ ex,
    fst (handleException this None token cleaning (Some (Cms ex)) σ)
    = match context ex, actReg_ this with
      | _ :: _, None => Ok (Some (Cms ex))
      | _, _ => Fault
      end).
  { intros ex. unfold handleException, addContextAndPrintException, signal, emit.
    unfold_monad. simpl.
    destruct (context ex) eqn:Hc; simpl; [done|].
    by destruct (actReg_ this). }
  assert (Hany : fst (handleException this None token cleaning (Some e) σ)
                 = match context (toCms e), actReg_ this with
                   | _ :: _, None => Ok (Some (Cms (toCms e)))
                   | _, _ => Fault
                   end).
  { destruct e as [ex|what]; [apply Hcms|]. simpl toCms. rewrite <- Hcms. reflexivity. }
  rewrite Hany. split.
  - destruct (context (toCms e)) as [|c cs]; [split; [by left|done]|].
    destruct (actReg_ this) as [areg|].
    + split; [by right|done].
    + split; [done|]. intros [?|[? ?]]; done.
  - intros Hc ->. by destruct (context (toCms e)).
Qed.

(** ** endJob: further properties *)

Lemma endedManagers_app evs1 evs2 :
  endedManagers (evs1 ++ evs2) = endedManagers evs1 ++ endedManagers evs2.
Proof. apply omap_app. Qed.

Lemma endedWorkers_app evs1 evs2 :
  endedWorkers (evs1 ++ evs2) = endedWorkers evs1 ++ endedWorkers evs2.
Proof. apply omap_app. Qed.

Lemma newEvents_collecting_logging exs evs σ :
  newEvents σ (collecting exs (logging evs σ)) = evs.
Proof. unfold newEvents, collecting, logging; simpl. by rewrite drop_app_length. Qed.

Lemma forEachWorker_endJob_events gc (ws : list WorkerPtr) σ :
  ∃ r evs exs,
    forEachWorker
      (fun w => try_catch_cms (convertException_wrap (Worker_endJob w gc))
                              (fun ex => addException ex)) ws σ
    = (r, collecting exs (logging evs σ)) ∧
    Forall (fun ev => ∃ w m, ev = EvWorkerEndJob w m gc ∧ w ∈ ws) evs.
Proof.
  revert σ. induction ws as [|w ws IH]; intros σ; simpl.
  - exists (Ok tt), [], []. by rewrite logging_nil, collecting_nil.
  - unfold bind at 1. rewrite Worker_endJob_run.
    destruct (heap σ !! w) as [wk|] eqn:Hw.
    + set (σ1 := collecting _ _).
      destruct (IH σ1) as (r & evs & exs & -> & Hevs).
      exists r, (EvWorkerEndJob w (module_ wk) gc :: evs),
        (from_option (fun e => [toCms e]) [] (onEndJob (module_ wk)) ++ exs).
      split.
      * unfold σ1, collecting, logging; simpl. rewrite <- !app_assoc. by destruct r.
      * constructor.
        -- exists w, (module_ wk). split; [done|left].
        -- eapply Forall_impl; [exact Hevs|]. intros ev (w' & m & -> & Hin).
           exists w', m. split; [done|by right].
    + exists Fault, [], []. by rewrite logging_nil, collecting_nil.
Qed.

Lemma WorkerManager_endJob_events wm gc σ :
  ∃ r evs exs,
    WorkerManager_endJob wm gc σ
    = (r, collecting exs (logging (EvManagerEndJob wm gc :: evs) σ)) ∧
    Forall (fun ev => ∃ w m, ev = EvWorkerEndJob w m gc ∧ w ∈ allWorkers wm) evs.
Proof.
  unfold WorkerManager_endJob, bind. rewrite emit_logging.
  destruct (forEachWorker_endJob_events gc (allWorkers wm)
              (logging [EvManagerEndJob wm gc] σ)) as (r & evs & exs & Hrun & Hevs).
  exists r, evs, exs. rewrite Hrun. split; [|done].
  unfold collecting, logging; simpl. rewrite <- !app_assoc. by destruct r.
Qed.

Lemma worker_events_ended gc (ws : list WorkerPtr) evs :
  Forall (fun ev => ∃ w m, ev = EvWorkerEndJob w m gc ∧ w ∈ ws) evs →
  endedManagers evs = [] ∧ Forall (fun w => w ∈ ws) (endedWorkers evs).
Proof.
  induction 1 as [|ev evs (w & m & -> & Hin) _ [IH1 IH2]]; [done|].
  split; [done|]. by constructor.
Qed.

(** X9: [endJob] runs the end-job transition against the job slot's
    SlotManager and no other: once when the pre-end-job signal returns, not
    at all when it throws, in which case the two signals are all that
    happens; a Worker the job slot does not hold is never ended. *)
Theorem endJob_job_slot_only this areg wm σ :
  actReg_ this = Some areg →
  workerManagers_ this !! Z.to_nat (jobSlotIndex this) = Some wm →
  let evs := newEvents σ (snd (endJob this σ)) in
  endedManagers evs =
    match preEndJobSignal_ areg with
    | None => [wm]
    | Some _ => []
    end ∧
  (is_Some (preEndJobSignal_ areg) → evs = [EvPreEndJob; EvPostEndJob]) ∧
  (∀ w, w ∉ allWorkers wm → w ∉ endedWorkers evs).
Proof.
  intros Hareg Hwm. rewrite (endJob_run this areg wm σ Hareg Hwm).
  destruct (preEndJobSignal_ areg) as [e|]; simpl.
  - rewrite newEvents_collecting_logging.
    split_and!; [done|done|]. intros w _. apply not_elem_of_nil.
  - destruct (WorkerManager_endJob_events wm
               (mk_GlobalContext kEndJob (processContext_ this))
               (logging [EvPreEndJob] σ)) as (r & evs' & exs & -> & Hevs).
    apply worker_events_ended in Hevs as [Hm Hw].
    assert (Hended : ∀ evs, endedWorkers evs = endedWorkers evs' →
              ∀ w, w ∉ allWorkers wm → w ∉ endedWorkers evs).
    { intros evs Heq w Hnin Hin. rewrite Heq in Hin. apply Hnin.
      by eapply (proj1 (Forall_forall _ _) Hw). }
    destruct r as [[]|e|]; simpl;
      (split_and!; [|intros [? ?]; done|]);
      unfold newEvents, collecting, logging; simpl;
      rewrite <- ?app_assoc, drop_app_length; simpl.
    + rewrite endedManagers_app, Hm. done.
    + apply Hended. rewrite endedWorkers_app. simpl. by rewrite app_nil_r.
    + rewrite endedManagers_app, Hm. done.
    + apply Hended. rewrite endedWorkers_app. simpl. by rewrite app_nil_r.
    + by rewrite Hm.
    + by apply Hended.
Qed.

(** X10: in every state, whatever the schedule, [endJob] changes no Worker
    and only appends: what the collector and the log held before the call
    is still there, in the same order, after it. *)
Theorem endJob_only_appends this σ :
  let σ' := snd (endJob this σ) in
  heap σ' = heap σ ∧
  collector σ `prefix_of` collector σ' ∧
  log σ `prefix_of` log σ'.
Proof.
  assert (Hkeep : ∀ exs evs,
    heap (collecting exs (logging evs σ)) = heap σ ∧
    collector σ `prefix_of` collector (collecting exs (logging evs σ)) ∧
    log σ `prefix_of` log (collecting exs (logging evs σ))).
  { intros exs evs. simpl. split_and!; [done|by eexists|by eexists]. }
  simpl.
  destruct (actReg_ this) as [areg|] eqn:Hareg.
  - destruct (workerManagers_ this !! Z.to_nat (jobSlotIndex this)) as [wm|] eqn:Hwm.
    + rewrite (endJob_run this areg wm σ Hareg Hwm).
      destruct (preEndJobSignal_ areg) as [e|]; [apply Hkeep|].
      destruct (WorkerManager_endJob_run wm
                  (mk_GlobalContext kEndJob (processContext_ this))
                  (logging [EvPreEndJob] σ)) as (r & evs & exs & -> & _ & _).
      destruct r as [[]|e|]; simpl;
        (split_and!; [done|..]; first [reflexivity|rewrite <- ?app_assoc; by eexists]).
    + unfold endJob, actReg, at_, ExceptionCollector_call. rewrite Hareg, Hwm.
      unfold_monad. rewrite !signal_run.
      destruct (preEndJobSignal_ areg) as [[ex|what]|]; simpl; rewrite ?signal_run;
        try (destruct (postEndJobSignal_ areg) as [[ex'|what']|]; simpl);
        (split_and!; [done|..]; first [reflexivity|rewrite <- ?app_assoc; by eexists]).
  - unfold endJob, actReg, at_, ExceptionCollector_call. rewrite Hareg.
    unfold_monad. simpl. by split_and!.
Qed.

(** ** replaceModule: further properties *)

Lemma replaceTargets_labelled h l wms found :
  (∀ w, found = Some w → labelAt h w = Some l) →
  Forall (fun w => labelAt h w = Some l) (replaceTargets h l wms found).
Proof.
  revert found. induction wms as [|wm wms IH]; intros found Hfound; [constructor|].
  simpl.
  destruct (firstLabelled h l (allWorkers wm)) as [w|] eqn:Hfirst; simpl.
  - apply firstLabelled_Some in Hfirst as [_ Hl].
    constructor; [done|]. apply IH. by intros w' [= <-].
  - destruct found as [w|]; [|constructor].
    constructor; [by apply Hfound|]. apply IH. intros w' [= <-]. by apply Hfound.
Qed.

Lemma length_foldl_setModule m ts h : length (foldl (setModule m) h ts) = length h.
Proof.
  revert h. induction ts as [|w ts IH]; intros h; [done|].
  simpl. rewrite IH. apply length_alter.
Qed.

Lemma labelAt_foldl_setModule m ts h i : labelAt (foldl (setModule m) h ts) i = labelAt h i.
Proof.
  revert h. induction ts as [|w ts IH]; intros h; [done|].
  simpl. by rewrite IH, labelAt_setModule.
Qed.

Lemma validSlots_foldl_setModule m ts h wms :
  validSlots h wms → validSlots (foldl (setModule m) h ts) wms.
Proof.
  revert h. induction ts as [|w ts IH]; intros h Hv; [done|].
  simpl. by apply IH, validSlots_setModule.
Qed.

Lemma replaceTargets_foldl_setModule m ts h l wms found :
  replaceTargets (foldl (setModule m) h ts) l wms found = replaceTargets h l wms found.
Proof.
  revert h. induction ts as [|w ts IH]; intros h; [done|].
  simpl. by rewrite IH, replaceTargets_setModule.
Qed.

Lemma foldl_setModule_again m ts ts' h :
  ts' ⊆ ts →
  foldl (setModule m) (foldl (setModule m) h ts) ts' = foldl (setModule m) h ts.
Proof.
  intros Hsub. apply list_eq. intros i.
  rewrite !lookup_foldl_setModule.
  destruct (decide (i ∈ ts')) as [Hin'|Hnin']; [|done].
  rewrite (decide_True (P := i ∈ ts)) by by apply Hsub.
  by destruct (h !! i).
Qed.

(** The run of [replaceModule] in full: the loop stops early only where the
    new implementation's begin-job fails at the job slot. *)
Lemma replaceModule_run this iMod l σ :
  validSlots (heap σ) (workerManagers_ this) →
  (Z.of_nat (length (workerManagers_ this)) ≤ 2 ^ 32)%Z →
  let m := m_mod iMod in
  let gc := mk_GlobalContext kBeginJob (processContext_ this) in
  let job := Z.to_nat (jobSlotIndex this) in
  let ts := replaceTargets (heap σ) l (workerManagers_ this) None in
  let failing := bool_decide (is_Some (onBeginJob m) ∧ job < length ts) in
  let n := if failing then S job else length ts in
  replaceModule this iMod l σ
    = (match onBeginJob m with
       | Some e => if failing then Throw e else Ok tt
       | None => Ok tt
       end,
       {| heap := foldl (setModule m) (heap σ) (take n ts);
          log := log σ ++ replaceEvents m gc (jobSlotIndex this) 0 (take n ts);
          collector := collector σ |}).
Proof.
  intros Hvalid Hlen m gc job ts failing n.
  pose proof (jobSlotIndex_range this) as Hjob.
  destruct (replaceModule_loop_run this iMod l (jobSlotIndex this) (workerManagers_ this)
              None 0%Z σ Hvalid) as (r & n0 & Hrun & Hn0 & Hcases); [done|lia|lia|].
  unfold replaceModule. rewrite Hrun. fold m gc ts in Hn0, Hcases |- *.
  destruct Hcases as [(-> & -> & Hok)|(e & -> & He & _ & Hn)].
  - assert (failing = false) as Hf.
    { apply bool_decide_eq_false. intros [[e He] Hlt].
      rewrite Hok in He; [done|lia|]. unfold job in Hlt. lia. }
    unfold n. rewrite Hf. by destruct (onBeginJob m).
  - assert (failing = true) as Hf.
    { apply bool_decide_eq_true. split; [by eexists|]. unfold job. lia. }
    unfold n. rewrite Hf, He.
    replace (S job) with n0 by (unfold job; lia). done.
Qed.

(** X11: whatever its outcome, [replaceModule] keeps the population of
    Workers: none is added or removed, every descriptor and so every
    label a slot binds stays, the pointers of the slots stay live and the
    collector is not written; a Worker that does change is bound to the
    given label and holds the new implementation afterwards. *)
Theorem replaceModule_keeps_population this iMod l σ :
  validSlots (heap σ) (workerManagers_ this) →
  (Z.of_nat (length (workerManagers_ this)) ≤ 2 ^ 32)%Z →
  let σ' := snd (replaceModule this iMod l σ) in
  length (heap σ') = length (heap σ) ∧
  (∀ w, description <$> heap σ' !! w = description <$> heap σ !! w) ∧
  (∀ wm l', hasWorker (heap σ') wm l' ↔ hasWorker (heap σ) wm l') ∧
  validSlots (heap σ') (workerManagers_ this) ∧
  collector σ' = collector σ ∧
  (∀ w, heap σ' !! w ≠ heap σ !! w →
        labelAt (heap σ) w = Some l ∧ module_ <$> heap σ' !! w = Some (m_mod iMod)).
Proof.
  intros Hvalid Hlen. rewrite (replaceModule_run this iMod l σ Hvalid Hlen). simpl.
  set (ts := replaceTargets (heap σ) l (workerManagers_ this) None).
  set (n := if bool_decide _ then _ else _).
  split_and!.
  - apply length_foldl_setModule.
  - intros w. rewrite lookup_foldl_setModule.
    destruct (decide (w ∈ take n ts)); [|done]. by destruct (heap σ !! w).
  - intros wm l'. unfold hasWorker. by setoid_rewrite labelAt_foldl_setModule.
  - by apply validSlots_foldl_setModule.
  - done.
  - intros w. rewrite lookup_foldl_setModule.
    destruct (decide (w ∈ take n ts)) as [Hin|]; [intros _|done].
    apply subseteq_take in Hin.
    assert (Hl : labelAt (heap σ) w = Some l).
    { pose proof (replaceTargets_labelled (heap σ) l (workerManagers_ this) None) as Hall.
      rewrite Forall_forall in Hall. by apply Hall. }
    split; [done|]. unfold labelAt in Hl. by destruct (heap σ !! w).
Qed.

(** X12: [replaceModule] fails in one way only, with the failure of the new
    implementation's begin-job, and exactly when that begin-job fails and
    the loop reaches the job slot. Nothing is rolled back then: the Workers
    taken for the slots up to the job slot hold the new implementation, and
    no other Worker was touched. *)
Theorem replaceModule_failure_no_rollback this iMod l σ :
  validSlots (heap σ) (workerManagers_ this) →
  (Z.of_nat (length (workerManagers_ this)) ≤ 2 ^ 32)%Z →
  let m := m_mod iMod in
  let job := Z.to_nat (jobSlotIndex this) in
  let ts := replaceTargets (heap σ) l (workerManagers_ this) None in
  let r := fst (replaceModule this iMod l σ) in
  let σ' := snd (replaceModule this iMod l σ) in
  (r = Ok tt ∨ ∃ e, r = Throw e) ∧
  (∀ e, r = Throw e ↔ onBeginJob m = Some e ∧ job < length ts) ∧
  (∀ e, r = Throw e →
        ∀ w, heap σ' !! w
             = if decide (w ∈ take (S job) ts) then withModule m <$> heap σ !! w
               else heap σ !! w).
Proof.
  intros Hvalid Hlen m job ts r σ'. unfold r, σ'.
  rewrite (replaceModule_run this iMod l σ Hvalid Hlen). simpl.
  fold m job ts.
  destruct (onBeginJob m) as [e|] eqn:He.
  - case_bool_decide as Hf; simpl.
    + destruct Hf as [_ Hlt]. split_and!.
      * right. by eexists.
      * intros e'. split; [by intros [= ->]|by intros [[= ->] _]].
      * intros _ _ w. apply lookup_foldl_setModule.
    + assert (¬ job < length ts) by (intros Hlt; apply Hf; split; [by eexists|done]).
      split_and!; [by left| |done].
      intros e'. split; [done|]. by intros [_ Hlt].
  - rewrite bool_decide_eq_false_2 by (intros [[? ?] _]; done).
    split_and!; [by left| |done].
    intros e'. split; [done|]. by intros [? _].
Qed.

(** X13: [replaceModule] invokes begin-job at most once, on the Worker it
    took for the job slot: the slot's own Worker for the label or, where
    the slot binds none, the one left from an earlier slot; when the loop
    ends before the job slot there is no begin-job at all. Replacements are
    logged for the Workers taken, slot by slot, up to the job slot at
    least. *)
Theorem replaceModule_begins_job_target this iMod l σ :
  validSlots (heap σ) (workerManagers_ this) →
  (Z.of_nat (length (workerManagers_ this)) ≤ 2 ^ 32)%Z →
  let job := Z.to_nat (jobSlotIndex this) in
  let ts := replaceTargets (heap σ) l (workerManagers_ this) None in
  let evs := newEvents σ (snd (replaceModule this iMod l σ)) in
  begunWorkers evs = option_list (ts !! job) ∧
  take (S job) (replacedWorkers evs) = take (S job) ts.
Proof.
  intros Hvalid Hlen job ts evs. unfold evs.
  rewrite (replaceModule_run this iMod l σ Hvalid Hlen). simpl.
  fold job ts. set (n := if bool_decide _ then _ else _).
  unfold newEvents. simpl. rewrite drop_app_length.
  pose proof (jobSlotIndex_range this) as Hjob.
  rewrite begunWorkers_replaceEvents by lia.
  rewrite replacedWorkers_replaceEvents, Z.sub_0_r. fold job.
  assert (Hn : n = S job ∨ n = length ts).
  { unfold n. case_bool_decide; [by left|by right]. }
  destruct Hn as [-> | ->].
  - rewrite lookup_take_lt by lia. split; [done|].
    by rewrite take_take, Nat.min_id.
  - by rewrite firstn_all.
Qed.

(** X14: replacing again with the same implementation, after a call that
    returned, changes no Worker any more, but is not skipped: the call
    returns and logs the same replacements and the same begin-job as the
    first one. *)
Theorem replaceModule_again this iMod l σ σ1 :
  validSlots (heap σ) (workerManagers_ this) →
  (Z.of_nat (length (workerManagers_ this)) ≤ 2 ^ 32)%Z →
  replaceModule this iMod l σ = (Ok tt, σ1) →
  ∃ σ2, replaceModule this iMod l σ1 = (Ok tt, σ2) ∧
        heap σ2 = heap σ1 ∧
        newEvents σ1 σ2 = newEvents σ σ1.
Proof.
  intros Hvalid Hlen. rewrite (replaceModule_run this iMod l σ Hvalid Hlen).
  set (m := m_mod iMod).
  set (ts := replaceTargets (heap σ) l (workerManagers_ this) None).
  set (failing := bool_decide _). set (n := if failing then _ else _).
  intros Hrun.
  assert (Hr : match onBeginJob m with
               | Some e => if failing then Throw e else Ok tt
               | None => Ok tt
               end = Ok tt) by congruence.
  assert (Hσ1 : σ1 = {| heap := foldl (setModule m) (heap σ) (take n ts);
                        log := log σ ++ replaceEvents m
                                 (mk_GlobalContext kBeginJob (processContext_ this))
                                 (jobSlotIndex this) 0 (take n ts);
                        collector := collector σ |}) by congruence.
  clear Hrun.
  assert (Hvalid1 : validSlots (heap σ1) (workerManagers_ this)).
  { rewrite Hσ1. simpl. by apply validSlots_foldl_setModule. }
  rewrite (replaceModule_run this iMod l σ1 Hvalid1 Hlen).
  assert (Hts : replaceTargets (heap σ1) l (workerManagers_ this) None = ts).
  { rewrite Hσ1. simpl. apply replaceTargets_foldl_setModule. }
  rewrite Hts. fold m failing n. rewrite Hr.
  eexists. split; [reflexivity|]. simpl. split.
  - rewrite Hσ1. simpl. by apply foldl_setModule_again.
  - unfold newEvents. simpl. rewrite drop_app_length.
    rewrite Hσ1. simpl. by rewrite drop_app_length.
Qed.

(** ** deleteModule: further properties *)

Lemma deleteModuleIfExists_run wm l σ :
  validPtrs (heap σ) (allWorkers wm) →
  WorkerManager_deleteModuleIfExists wm l σ = (Ok (withoutLabel (heap σ) l wm), σ).
Proof.
  intros Hv. unfold WorkerManager_deleteModuleIfExists, withoutLabel, bind.
  rewrite (searchLabel_run l (allWorkers wm) None σ Hv).
  by destruct (firstLabelled (heap σ) l (allWorkers wm)).
Qed.

Lemma forEachManager_fmap body (f : WorkerManager → WorkerManager) wms σ :
  Forall (fun wm => body wm σ = (Ok (f wm), σ)) wms →
  forEachManager body wms σ = (Ok (f <$> wms), σ).
Proof.
  induction 1 as [|wm wms Hwm _ IH]; simpl; [done|].
  unfold bind at 1. rewrite Hwm. unfold bind at 1. by rewrite IH.
Qed.

Lemma deleteModule_run this l σ :
  validSlots (heap σ) (workerManagers_ this) →
  deleteModule this l σ
    = (Ok {| actReg_ := actReg_ this;
             processContext_ := processContext_ this;
             numberOfConcurrentLumis_ := numberOfConcurrentLumis_ this;
             numberOfConcurrentRuns_ := numberOfConcurrentRuns_ this;
             workerManagers_ := withoutLabel (heap σ) l <$> workerManagers_ this |}, σ).
Proof.
  intros Hv. unfold deleteModule, bind.
  rewrite (forEachManager_fmap _ (withoutLabel (heap σ) l)); [done|].
  eapply Forall_impl; [exact Hv|]. intros wm. apply deleteModuleIfExists_run.
Qed.

Lemma withoutLabel_sublist h l wm :
  allWorkers (withoutLabel h l wm) `sublist_of` allWorkers wm.
Proof.
  unfold withoutLabel. destruct (firstLabelled h l (allWorkers wm)); [|done].
  apply sublist_filter.
Qed.

Lemma withoutLabel_other h l wm l' :
  l' ≠ l → hasWorker h (withoutLabel h l wm) l' ↔ hasWorker h wm l'.
Proof.
  intros Hne. unfold withoutLabel.
  destruct (firstLabelled h l (allWorkers wm)) as [w|] eqn:Hfirst; [|done].
  apply firstLabelled_Some in Hfirst as [_ Hl].
  unfold hasWorker; simpl. split.
  - intros (w' & Hin & Hl'). exists w'. split; [|done].
    by apply list_elem_of_filter in Hin as [_ Hin].
  - intros (w' & Hin & Hl'). exists w'. split; [|done].
    apply list_elem_of_filter. split; [|done]. intros ->. congruence.
Qed.


Lemma omap_NoDup_inj {A B} (f : A → option B) (xs : list A) x y b :
  NoDup (omap f xs) → x ∈ xs → y ∈ xs → f x = Some b → f y = Some b → x = y.
Proof.
  induction xs as [|z xs IH]; intros Hnd Hx Hy Hfx Hfy; [by apply elem_of_nil in Hx|].
  simpl in Hnd.
  assert (Hfresh : ∀ v, f z = Some b → v ∈ xs → f v = Some b → False).
  { intros v Hfz Hv Hfv. rewrite Hfz in Hnd. apply NoDup_cons in Hnd as [Hnin _].
    apply Hnin. apply list_elem_of_omap. by exists v. }
  assert (Hnd' : NoDup (omap f xs)).
  { destruct (f z); [by apply NoDup_cons in Hnd as [_ ?]|done]. }
  apply elem_of_cons in Hx as [->|Hx], Hy as [->|Hy]; [done| | |by apply IH].
  - destruct (Hfresh y Hfx Hy Hfy).
  - destruct (Hfresh x Hfy Hx Hfx).
Qed.

Lemma withoutLabel_gone h l wm :
  NoDup (slotLabels h wm) → ¬ hasWorker h (withoutLabel h l wm) l.
Proof.
  intros Hnd. unfold withoutLabel.
  destruct (firstLabelled h l (allWorkers wm)) as [w|] eqn:Hfirst.
  - apply firstLabelled_Some in Hfirst as [Hin Hl].
    intros (w' & Hin' & Hl'). simpl in Hin'.
    apply list_elem_of_filter in Hin' as [Hne Hin'].
    apply Hne. by eapply (omap_NoDup_inj (labelAt h)).
  - intros (w & Hin & Hl). by eapply (proj1 (firstLabelled_None _ _ _) Hfirst).
Qed.

Lemma omap_sublist {A B} (f : A → option B) (xs ys : list A) :
  xs `sublist_of` ys → omap f xs `sublist_of` omap f ys.
Proof.
  induction 1 as [|x xs ys _ IH|x xs ys _ IH]; simpl.
  - constructor.
  - destruct (f x); [by constructor|done].
  - destruct (f x); [by constructor|done].
Qed.


(** X16: [deleteModule] keeps what the constructor established: live
    pointers in every slot, no label bound twice in a slot and, given
    that, the symmetry of the slots. *)
Theorem deleteModule_keeps_invariants this l σ this' σ' :
  validSlots (heap σ) (workerManagers_ this) →
  Forall (fun wm => NoDup (slotLabels (heap σ) wm)) (workerManagers_ this) →
  deleteModule this l σ = (Ok this', σ') →
  validSlots (heap σ') (workerManagers_ this') ∧
  Forall (fun wm => NoDup (slotLabels (heap σ') wm)) (workerManagers_ this') ∧
  (symmetric (heap σ) (workerManagers_ this) →
   symmetric (heap σ') (workerManagers_ this')).
Proof.
  intros Hv Hnd. rewrite (deleteModule_run this l σ Hv). intros [= <- <-]. simpl.
  split_and!.
  - apply Forall_fmap. eapply Forall_impl; [exact Hv|]. intros wm Hwm. simpl.
    unfold validPtrs in *. rewrite Forall_forall in Hwm |- *. intros w Hw. apply Hwm.
    eapply elem_of_sublist; [exact Hw|apply withoutLabel_sublist].
  - apply Forall_fmap. eapply Forall_impl; [exact Hnd|]. intros wm Hwm. simpl.
    eapply sublist_NoDup; [exact Hwm|]. apply omap_sublist, withoutLabel_sublist.
  - intros Hsym l' wm1' wm2' Hin1 Hin2 Hhas.
    apply list_elem_of_fmap in Hin1 as (wm1 & -> & Hin1).
    apply list_elem_of_fmap in Hin2 as (wm2 & -> & Hin2).
    destruct (decide (l' = l)) as [->|Hne].
    + rewrite Forall_forall in Hnd. by destruct (withoutLabel_gone (heap σ) l wm1 (Hnd _ Hin1)).
    + apply withoutLabel_other; [done|]. apply (Hsym l' wm1 wm2 Hin1 Hin2).
      by apply (withoutLabel_other (heap σ) l wm1 l' Hne).
Qed.

(** X17: after [deleteModule] for a label, on slots none of which binds a
    label twice, [replaceModule] for that label finds nothing to replace:
    it returns with Workers, log and collector unchanged, and no begin-job
    is run. *)
Theorem deleteModule_then_replaceModule this iMod l σ this' σ' :
  validSlots (heap σ) (workerManagers_ this) →
  Forall (fun wm => NoDup (slotLabels (heap σ) wm)) (workerManagers_ this) →
  deleteModule this l σ = (Ok this', σ') →
  replaceModule this' iMod l σ' = (Ok tt, σ').
Proof.
  intros Hv Hnd. rewrite (deleteModule_run this l σ Hv). intros [= <- <-].
  unfold replaceModule. simpl workerManagers_.
  destruct (workerManagers_ this) as [|wm wms]; [done|].
  apply Forall_cons in Hv as [Hv _]. apply Forall_cons in Hnd as [Hnd _].
  simpl. unfold bind at 1.
  rewrite searchLabel_run.
  - rewrite (not_hasWorker_firstLabelled (heap σ) (withoutLabel (heap σ) l wm) l); [done|].
    by apply withoutLabel_gone.
  - unfold validPtrs in *. rewrite Forall_forall in Hv |- *. intros w Hw. apply Hv.
    eapply elem_of_sublist; [exact Hw|apply withoutLabel_sublist].
Qed.

(** ** From construction to the operations *)

Lemma GlobalSchedule_new_fields inserter pathStatusInserters endPathStatusInserters
    modReg iModulesToUse proc_pset prealloc areg pc σ this σ' :
  GlobalSchedule_new inserter pathStatusInserters endPathStatusInserters modReg
    iModulesToUse proc_pset prealloc areg pc σ = (Ok this, σ') →
  actReg_ this = areg ∧ processContext_ this = pc.
Proof.
  intros Hnew. unfold GlobalSchedule_new in Hnew.
  apply bind_Ok in Hnew as (wms1 & σ1 & _ & Hnew).
  apply bind_Ok in Hnew as (wms2 & σ2 & _ & Hnew).
  apply bind_Ok in Hnew as (wms3 & σ3 & _ & Hnew).
  apply bind_Ok in Hnew as (wms4 & σ4 & _ & Hnew).
  unfold ret in Hnew. by simplify_eq.
Qed.

Lemma forEachWorker_beginJob_valid gc (ws : list WorkerPtr) σ :
  validPtrs (heap σ) ws →
  fst (forEachWorker (fun w => Worker_beginJob w gc) ws σ) ≠ Fault.
Proof.
  revert σ. induction ws as [|w ws IH]; intros σ Hv; simpl; [done|].
  apply Forall_cons in Hv as [[wk Hw] Hv].
  unfold bind at 1. rewrite Worker_beginJob_run, Hw.
  destruct (onBeginJob (module_ wk)); [done|]. by apply IH.
Qed.

Lemma WorkerManager_beginJob_valid wm gc σ :
  validPtrs (heap σ) (allWorkers wm) →
  fst (WorkerManager_beginJob wm gc σ) ≠ Fault.
Proof.
  intros Hv. unfold WorkerManager_beginJob, bind. rewrite emit_logging.
  by apply forEachWorker_beginJob_valid.
Qed.

(** X18: the constructor establishes what the other operations rely on.
    In the state a construction with an activity registry left, unless the
    unsigned slot count wrapped around to zero, every operation is
    defined: [beginJob] finds its registry and its job slot and every
    Worker it begins, [endJob] returns normally, [replaceModule] follows
    live pointers only, and [deleteModule] returns in the same state. *)
Theorem construction_enables_operations inserter pathStatusInserters
    endPathStatusInserters modReg iModulesToUse proc_pset prealloc areg pc σ this σ' :
  GlobalSchedule_new inserter pathStatusInserters endPathStatusInserters modReg
    iModulesToUse proc_pset prealloc (Some areg) pc σ = (Ok this, σ') →
  jobSlotIndex this ≠ (2 ^ 32 - 1)%Z →
  (∀ processContext, fst (beginJob this processContext σ') ≠ Fault) ∧
  fst (endJob this σ') = Ok tt ∧
  (∀ iMod l, fst (replaceModule this iMod l σ') ≠ Fault) ∧
  (∀ l, ∃ this', deleteModule this l σ' = (Ok this', σ')).
Proof.
  intros Hnew Hjob.
  destruct (GlobalSchedule_new_populated _ _ _ _ _ _ _ _ _ _ _ _ Hnew)
    as ((Hlen & Hvalid & _) & HLumis & HRuns).
  destruct (GlobalSchedule_new_fields _ _ _ _ _ _ _ _ _ _ _ _ Hnew) as [Hareg _].
  pose proof (jobSlotIndex_range this) as Hrange.
  assert (Hcount : length (workerManagers_ this) = S (Z.to_nat (jobSlotIndex this))).
  { rewrite Hlen. unfold jobSlotIndex, numberOfConcurrentJobs_ in *.
    rewrite HLumis, HRuns in *. unfold wrap32 at 1. rewrite Z.mod_small by lia. lia. }
  destruct (lookup_lt_is_Some_2 (workerManagers_ this) (Z.to_nat (jobSlotIndex this)))
    as [wm Hwm]; [lia|].
  assert (Hwmv : validPtrs (heap σ') (allWorkers wm)).
  { unfold validSlots in Hvalid. rewrite Forall_forall in Hvalid. apply Hvalid.
    by eapply list_elem_of_lookup_2. }
  split_and!.
  - intros pc'. rewrite (beginJob_run this areg pc' wm σ' Hareg Hwm).
    destruct (preBeginJobSignal_ areg pc'); [done|].
    pose proof (WorkerManager_beginJob_valid wm
                  (mk_GlobalContext kBeginJob (processContext_ this))
                  (logging [EvPreBeginJob pc'] σ') Hwmv) as Hnf.
    destruct (WorkerManager_beginJob _ _ _) as [[[]|e|] σ2]; simpl in *; [|done|done].
    by destruct (postBeginJobSignal_ areg).
  - rewrite (endJob_run this areg wm σ' Hareg Hwm).
    destruct (preEndJobSignal_ areg); [done|].
    destruct (WorkerManager_endJob_run wm
                (mk_GlobalContext kEndJob (processContext_ this))
                (logging [EvPreEndJob] σ')) as (r & evs & exs & -> & _ & Hok).
    by destruct (Hok Hwmv) as [-> _].
  - intros iMod l. rewrite (replaceModule_run this iMod l σ' Hvalid) by lia. simpl.
    destruct (onBeginJob (m_mod iMod)); [|done]. by case_bool_decide.
  - intros l. eexists. by apply deleteModule_run.
Qed.

End Verification.

(** ** The statements on the sample configurations *)

Lemma sample_slots_valid : validSlots (heap sample_world) (workerManagers_ sample_schedule).
Proof. unfold validSlots, validPtrs. apply (bool_decide_unpack _). by vm_compute. Defined.

Lemma lopsided_slots_valid :
  validSlots (heap lopsided_world) (workerManagers_ lopsided_schedule).
Proof. unfold validSlots, validPtrs. apply (bool_decide_unpack _). by vm_compute. Defined.

(** C1 on the sample construction: five slots, and the symmetry holds. *)
Lemma construction_symmetry_witness :
  length (workerManagers_ sample_schedule) = 5 ∧
  symmetric (heap sample_world) (workerManagers_ sample_schedule).
Proof.
  destruct (construction_symmetry (hdr := sample_headers)
              (Some (sample_module "TriggerResults" None None))
              [sample_module "p" None None]
              [sample_module "e" None None]
              sample_modReg ["a"; "p"; "b"] sample_pset
              {| numberOfLuminosityBlocks := 2; numberOfRuns := 1 |}
              (Some quiet_actReg) sample_pc empty_world sample_schedule sample_world)
    as (Hlen & _ & _ & _ & Hsym).
  - simpl. lia.
  - simpl. lia.
  - simpl. lia.
  - by vm_compute.
  - by vm_compute.
  - split; [exact Hlen|exact Hsym].
Defined.

(** C2 on the schedule whose signals throw: the exception thrown is the
    pre-signal's. *)
Lemma beginJob_failure_staging_witness :
  beginJob (hdr := sample_headers) failing_schedule sample_pc sample_world
  = (Throw (Cms {| category := "StdException"; message := "pre begin failed";
                   context := ["Handling pre signal, likely in a service function"] |}),
     logging [EvPreBeginJob sample_pc; EvPostBeginJob] sample_world).
Proof.
  assert (Hwm : workerManagers_ failing_schedule
                  !! Z.to_nat (jobSlotIndex (hdr := sample_headers) failing_schedule)
                = Some {| allWorkers := [4; 9; 14; 19; 24] |}) by (by vm_compute).
  exact (proj1 (beginJob_failure_staging (hdr := sample_headers) failing_schedule
                  failing_actReg sample_pc _ sample_world eq_refl Hwm)
               (Foreign "pre begin failed") eq_refl).
Defined.

(** C3 as amended, on the sample schedule with quiet signals: the job
    slot's manager is the one begun. *)
Lemma beginJob_job_slot_only_witness :
  begunManagers
    (newEvents sample_world
       (snd (beginJob (hdr := sample_headers) sample_schedule sample_pc sample_world)))
  = [ {| allWorkers := [4; 9; 14; 19; 24] |} ].
Proof.
  assert (Hwm : workerManagers_ sample_schedule
                  !! Z.to_nat (jobSlotIndex (hdr := sample_headers) sample_schedule)
                = Some {| allWorkers := [4; 9; 14; 19; 24] |}) by (by vm_compute).
  assert (Hareg : actReg_ sample_schedule = Some quiet_actReg) by (by vm_compute).
  exact (proj1 (beginJob_job_slot_only (hdr := sample_headers) sample_schedule
                  quiet_actReg sample_pc _ sample_world Hareg Hwm)).
Defined.

(** C3 as stated fails on the schedule whose pre-begin-job signal throws:
    the call logs the two signals only, and the begin-job transition is
    run against no SlotManager at all. *)
Lemma beginJob_pre_signal_failure_runs_no_slot :
  let evs :=
    newEvents sample_world
      (snd (beginJob (hdr := sample_headers) failing_schedule sample_pc sample_world)) in
  evs = [EvPreBeginJob sample_pc; EvPostBeginJob] ∧
  length (begunManagers evs) ≠ 1.
Proof. by vm_compute. Qed.

(** C4 on the schedule whose signals throw: the call returns and the
    collector holds the pre-signal's failure. *)
Lemma endJob_reports_to_collector_witness :
  fst (endJob (hdr := sample_headers) failing_schedule sample_world) = Ok tt ∧
  collector (snd (endJob (hdr := sample_headers) failing_schedule sample_world))
  = [ {| category := "StdException"; message := "pre end failed";
         context := ["Handling pre signal, likely in a service function"] |} ].
Proof.
  assert (Hwm : workerManagers_ failing_schedule
                  !! Z.to_nat (jobSlotIndex (hdr := sample_headers) failing_schedule)
                = Some {| allWorkers := [4; 9; 14; 19; 24] |}) by (by vm_compute).
  assert (Hvalid : validPtrs (heap sample_world) [4; 9; 14; 19; 24]).
  { unfold validPtrs. apply (bool_decide_unpack _). by vm_compute. }
  destruct (proj2 (endJob_reports_to_collector (hdr := sample_headers)
                     failing_schedule sample_world)
                  failing_actReg _ eq_refl Hwm Hvalid) as (Hok & _ & Hcollected).
  split; [exact Hok|exact Hcollected].
Defined.

(** C5 on the sample schedule, with a replacement whose begin-job throws:
    the five Workers for [a] are replaced, the job slot's Worker is begun,
    and the call throws what that begin-job threw. *)
Lemma replaceModule_every_slot_witness :
  let ran := replaceModule (hdr := sample_headers) sample_schedule sample_holder "a"
                           sample_world in
  fst ran = Throw (Foreign "begin failed") ∧
  replacedWorkers (newEvents sample_world (snd ran)) = [0; 1; 2; 3; 4] ∧
  begunWorkers (newEvents sample_world (snd ran)) = [4].
Proof.
  assert (Howners :
    Forall2 (fun wm w => firstLabelled (heap sample_world) "a" (allWorkers wm) = Some w)
            (workerManagers_ sample_schedule) [0; 1; 2; 3; 4]).
  { apply (bool_decide_unpack _). by vm_compute. }
  assert (Hlen : length (workerManagers_ sample_schedule)
                 = S (Z.to_nat (jobSlotIndex (hdr := sample_headers) sample_schedule)))
    by (by vm_compute).
  assert (Hjob : [0; 1; 2; 3; 4]
                   !! Z.to_nat (jobSlotIndex (hdr := sample_headers) sample_schedule)
                 = Some 4) by (by vm_compute).
  destruct (replaceModule_every_slot (hdr := sample_headers) sample_schedule sample_holder
              "a" [0; 1; 2; 3; 4] 4 sample_world sample_slots_valid Howners Hlen Hjob)
    as (Hthrown & _ & Hreplaced & Hbegun & _).
  split_and!; [exact Hthrown|exact Hreplaced|exact Hbegun].
Defined.

(** C6 on the sample schedule, for a label that no Worker is bound to. *)
Lemma unknown_label_no_op_witness :
  replaceModule (hdr := sample_headers) sample_schedule sample_holder "nonexistent"
                sample_world = (Ok tt, sample_world) ∧
  deleteModule sample_schedule "nonexistent" sample_world = (Ok sample_schedule, sample_world).
Proof.
  assert (Hno : ∀ wm, wm ∈ workerManagers_ sample_schedule →
                      ¬ hasWorker (heap sample_world) wm "nonexistent").
  { apply Forall_forall.
    apply (Forall_impl (fun wm => "nonexistent" ∉ slotLabels (heap sample_world) wm)).
    - apply (bool_decide_unpack _). by vm_compute.
    - intros wm Hwm Hhas. by apply Hwm, hasWorker_slotLabels. }
  destruct (unknown_label_no_op (hdr := sample_headers) sample_schedule sample_holder
              "nonexistent" sample_world sample_slots_valid Hno)
    as (Hreplace & Hdelete & _).
  split; [exact Hreplace|exact Hdelete].
Defined.

(** C9 on the sample schedule: twenty-five descriptors, five of them for
    the label [a]. *)
Lemma getAllModuleDescriptions_every_slot_witness :
  ∃ ds,
    getAllModuleDescriptions sample_schedule sample_world = (Ok ds, sample_world) ∧
    length ds = 25 ∧
    labelCount "a" ds = 5.
Proof.
  destruct (getAllModuleDescriptions_every_slot sample_schedule sample_world
              sample_slots_valid) as (ds & Hrun & _ & Hlen & Hcount).
  exists ds. split_and!.
  - exact Hrun.
  - rewrite Hlen. by vm_compute.
  - rewrite Hcount; [by vm_compute|].
    apply (bool_decide_unpack _). by vm_compute.
Defined.

(** C10 on the schedule that violates the symmetry: the second slot has no
    Worker for [a], and the Worker taken for it is the first slot's. *)
Lemma replaceModule_carries_found_witness :
  replaceTargets (heap lopsided_world) "a" (workerManagers_ lopsided_schedule) None !! 1
  = Some 0.
Proof.
  assert (Hlen : (Z.of_nat (length (workerManagers_ lopsided_schedule)) ≤ 2 ^ 32)%Z)
    by (by vm_compute).
  destruct (replaceModule_carries_found (hdr := sample_headers) lopsided_schedule
              sample_holder "a" lopsided_world lopsided_slots_valid Hlen)
    as (_ & _ & _ & Habsent & _).
  apply (Habsent 0 {| allWorkers := [] |} 0); reflexivity.
Defined.

(** X1 on the sample construction: five slots, the job slot being the
    fifth. *)
Lemma construction_job_slot_last_or_none_witness :
  length (workerManagers_ sample_schedule)
  = Z.to_nat (wrap32 (jobSlotIndex (hdr := sample_headers) sample_schedule + 1)).
Proof.
  assert (Hnew : GlobalSchedule_new (hdr := sample_headers)
                   (Some (sample_module "TriggerResults" None None))
                   [sample_module "p" None None]
                   [sample_module "e" None None]
                   sample_modReg ["a"; "p"; "b"] sample_pset
                   {| numberOfLuminosityBlocks := 2; numberOfRuns := 1 |}
                   (Some quiet_actReg) sample_pc empty_world
                 = (Ok sample_schedule, sample_world)) by (by vm_compute).
  exact (proj1 (construction_job_slot_last_or_none (hdr := sample_headers)
                  _ _ _ _ _ _ _ _ _ _ _ _ Hnew)).
Defined.

(** X2 on a configuration whose block for [a] is not tracked. *)
Lemma construction_untracked_block_aborts_witness :
  fst (GlobalSchedule_new (hdr := sample_headers) None [] [] sample_modReg ["a"]
         untracked_pset {| numberOfLuminosityBlocks := 2; numberOfRuns := 1 |}
         (Some quiet_actReg) sample_pc empty_world) ≠ Ok no_schedule.
Proof.
  assert (Hl : "a" ∈ ["a"]) by left.
  exact (construction_untracked_block_aborts (hdr := sample_headers) None [] []
           sample_modReg ["a"] untracked_pset
           {| numberOfLuminosityBlocks := 2; numberOfRuns := 1 |}
           (Some quiet_actReg) sample_pc empty_world "a"
           {| isTracked := false; module_type := "Producer" |}
           Hl eq_refl eq_refl no_schedule).
Defined.

(** X3 on the sample configuration: every block is tracked and the
    registry builds every module, so a schedule is returned. *)
Lemma construction_returns_iff_witness :
  ∃ this σ',
    GlobalSchedule_new (hdr := sample_headers)
      (Some (sample_module "TriggerResults" None None))
      [sample_module "p" None None]
      [sample_module "e" None None]
      sample_modReg ["a"; "p"; "b"] sample_pset
      {| numberOfLuminosityBlocks := 2; numberOfRuns := 1 |}
      (Some quiet_actReg) sample_pc empty_world = (Ok this, σ').
Proof.
  apply (proj2 (construction_returns_iff (hdr := sample_headers)
                  (Some (sample_module "TriggerResults" None None))
                  [sample_module "p" None None]
                  [sample_module "e" None None]
                  sample_modReg ["a"; "p"; "b"] sample_pset
                  {| numberOfLuminosityBlocks := 2; numberOfRuns := 1 |}
                  (Some quiet_actReg) sample_pc empty_world eq_refl)).
  constructor; [|constructor; [|constructor; [|constructor]]].
  - intros pset [= <-]. split; [done|by eexists].
  - intros pset Hpset. done.
  - intros pset [= <-]. split; [done|by eexists].
Defined.

(** X4 on the sample construction: the job slot binds [a], which was asked
    for with a block. *)
Lemma construction_binds_only_requested_witness :
  ("a" ∈ ["a"; "p"; "b"] ∧ is_Some (sample_pset "a")) ∨
  (∃ m, m ∈ option_list (Some (sample_module "TriggerResults" None None))
              ++ [sample_module "p" None None] ++ [sample_module "e" None None] ∧
        moduleLabel (moduleDescription m) = "a").
Proof.
  assert (Hnew : GlobalSchedule_new (hdr := sample_headers)
                   (Some (sample_module "TriggerResults" None None))
                   [sample_module "p" None None]
                   [sample_module "e" None None]
                   sample_modReg ["a"; "p"; "b"] sample_pset
                   {| numberOfLuminosityBlocks := 2; numberOfRuns := 1 |}
                   (Some quiet_actReg) sample_pc empty_world
                 = (Ok sample_schedule, sample_world)) by (by vm_compute).
  assert (Hwm : {| allWorkers := [4; 9; 14; 19; 24] |} ∈ workerManagers_ sample_schedule).
  { apply (list_elem_of_lookup_2 _ 4). by vm_compute. }
  assert (Hhas : hasWorker (heap sample_world) {| allWorkers := [4; 9; 14; 19; 24] |} "a").
  { exists 4. split; [left|by vm_compute]. }
  exact (construction_binds_only_requested (hdr := sample_headers)
           _ _ _ _ _ _ _ _ _ _ _ _ Hnew _ "a" Hwm Hhas).
Defined.


(** X9 on the schedule whose signals throw: the two signals are all that
    happens. *)
Lemma endJob_job_slot_only_witness :
  newEvents sample_world (snd (endJob (hdr := sample_headers) failing_schedule sample_world))
  = [EvPreEndJob; EvPostEndJob].
Proof.
  assert (Hwm : workerManagers_ failing_schedule
                  !! Z.to_nat (jobSlotIndex (hdr := sample_headers) failing_schedule)
                = Some {| allWorkers := [4; 9; 14; 19; 24] |}) by (by vm_compute).
  assert (Hpre : is_Some (preEndJobSignal_ failing_actReg)) by (by eexists).
  exact (proj1 (proj2 (endJob_job_slot_only (hdr := sample_headers) failing_schedule
                         failing_actReg _ sample_world eq_refl Hwm)) Hpre).
Defined.

(** X11 on the sample schedule, with the replacement whose begin-job
    throws: the heap has as many Workers as before. *)
Lemma replaceModule_keeps_population_witness :
  length (heap (snd (replaceModule (hdr := sample_headers) sample_schedule sample_holder
                       "a" sample_world)))
  = length (heap sample_world).
Proof.
  assert (Hlen : (Z.of_nat (length (workerManagers_ sample_schedule)) ≤ 2 ^ 32)%Z)
    by (by vm_compute).
  exact (proj1 (replaceModule_keeps_population (hdr := sample_headers) sample_schedule
                  sample_holder "a" sample_world sample_slots_valid Hlen)).
Defined.

(** X12 on the sample schedule: the replacement's begin-job fails and the
    job slot is reached, so the call throws that failure. *)
Lemma replaceModule_failure_no_rollback_witness :
  fst (replaceModule (hdr := sample_headers) sample_schedule sample_holder "a" sample_world)
  = Throw (Foreign "begin failed").
Proof.
  assert (Hlen : (Z.of_nat (length (workerManagers_ sample_schedule)) ≤ 2 ^ 32)%Z)
    by (by vm_compute).
  assert (Hreach : Z.to_nat (jobSlotIndex (hdr := sample_headers) sample_schedule)
                   < length (replaceTargets (heap sample_world) "a"
                               (workerManagers_ sample_schedule) None)).
  { vm_compute. lia. }
  exact (proj2 (proj1 (proj2 (replaceModule_failure_no_rollback (hdr := sample_headers)
                                sample_schedule sample_holder "a" sample_world
                                sample_slots_valid Hlen))
                      (Foreign "begin failed"))
               (conj eq_refl Hreach)).
Defined.

(** X13 on the schedule that violates the symmetry: the job slot binds no
    [a], and begin-job is invoked on the first slot's Worker. *)
Lemma replaceModule_begins_job_target_witness :
  begunWorkers
    (newEvents lopsided_world
       (snd (replaceModule (hdr := sample_headers) lopsided_schedule quiet_holder "a"
               lopsided_world)))
  = option_list
      (replaceTargets (heap lopsided_world) "a" (workerManagers_ lopsided_schedule) None
         !! Z.to_nat (jobSlotIndex (hdr := sample_headers) lopsided_schedule)).
Proof.
  assert (Hlen : (Z.of_nat (length (workerManagers_ lopsided_schedule)) ≤ 2 ^ 32)%Z)
    by (by vm_compute).
  exact (proj1 (replaceModule_begins_job_target (hdr := sample_headers) lopsided_schedule
                  quiet_holder "a" lopsided_world lopsided_slots_valid Hlen)).
Defined.

(** X14 on the sample schedule, with the replacement that does not fail. *)
Lemma replaceModule_again_witness :
  let σ1 := snd (replaceModule (hdr := sample_headers) sample_schedule quiet_holder "a"
                   sample_world) in
  ∃ σ2, replaceModule (hdr := sample_headers) sample_schedule quiet_holder "a" σ1
        = (Ok tt, σ2) ∧
        heap σ2 = heap σ1 ∧
        newEvents σ1 σ2 = newEvents sample_world σ1.
Proof.
  assert (Hlen : (Z.of_nat (length (workerManagers_ sample_schedule)) ≤ 2 ^ 32)%Z)
    by (by vm_compute).
  assert (Hrun : replaceModule (hdr := sample_headers) sample_schedule quiet_holder "a"
                   sample_world
                 = (Ok tt, snd (replaceModule (hdr := sample_headers) sample_schedule
                                  quiet_holder "a" sample_world))) by (by vm_compute).
  exact (replaceModule_again (hdr := sample_headers) sample_schedule quiet_holder "a"
           sample_world _ sample_slots_valid Hlen Hrun).
Defined.


(** X16 on the sample schedule: after deleting [a] the pointers of the
    slots are still live. *)
Lemma deleteModule_keeps_invariants_witness :
  validSlots (heap sample_world) (workerManagers_ pruned_schedule).
Proof.
  assert (Hnd : Forall (fun wm => NoDup (slotLabels (heap sample_world) wm))
                       (workerManagers_ sample_schedule)).
  { apply (bool_decide_unpack _). by vm_compute. }
  assert (Hrun : deleteModule sample_schedule "a" sample_world
                 = (Ok pruned_schedule, sample_world)) by (by vm_compute).
  exact (proj1 (deleteModule_keeps_invariants sample_schedule "a" sample_world
                  pruned_schedule sample_world sample_slots_valid Hnd Hrun)).
Defined.

(** X17 on the sample schedule: after deleting [a], replacing [a] does
    nothing. *)
Lemma deleteModule_then_replaceModule_witness :
  replaceModule (hdr := sample_headers) pruned_schedule sample_holder "a" sample_world
  = (Ok tt, sample_world).
Proof.
  assert (Hnd : Forall (fun wm => NoDup (slotLabels (heap sample_world) wm))
                       (workerManagers_ sample_schedule)).
  { apply (bool_decide_unpack _). by vm_compute. }
  assert (Hrun : deleteModule sample_schedule "a" sample_world
                 = (Ok pruned_schedule, sample_world)) by (by vm_compute).
  exact (deleteModule_then_replaceModule (hdr := sample_headers) sample_schedule
           sample_holder "a" sample_world pruned_schedule sample_world
           sample_slots_valid Hnd Hrun).
Defined.

(** X18 on the sample construction: [endJob] returns normally. *)
Lemma construction_enables_operations_witness :
  fst (endJob (hdr := sample_headers) sample_schedule sample_world) = Ok tt.
Proof.
  assert (Hnew : GlobalSchedule_new (hdr := sample_headers)
                   (Some (sample_module "TriggerResults" None None))
                   [sample_module "p" None None]
                   [sample_module "e" None None]
                   sample_modReg ["a"; "p"; "b"] sample_pset
                   {| numberOfLuminosityBlocks := 2; numberOfRuns := 1 |}
                   (Some quiet_actReg) sample_pc empty_world
                 = (Ok sample_schedule, sample_world)) by (by vm_compute).
  assert (Hjob : jobSlotIndex (hdr := sample_headers) sample_schedule ≠ (2 ^ 32 - 1)%Z)
    by (by vm_compute).
  exact (proj1 (proj2 (construction_enables_operations (hdr := sample_headers)
                         _ _ _ _ _ _ _ _ _ _ _ _ Hnew Hjob))).
Defined.
